(** * antithesis_sdk.h: the value model, the one-shot assertion state and
      the records written to standard output

    The header is embedded shallowly.  Text is [string]; a [std::map] is
    kept as the sequence of its entries in iteration order; the member
    functions of [Assertion] run in a small state monad over the object
    and the lines it has printed. *)

From Stdlib Require Import String Ascii List ZArith NArith Bool Lia.
From Stdlib Require Import Sorted Permutation DecimalString.
Import ListNotations.

Local Open Scope list_scope.
Local Open Scope string_scope.
Local Set Warnings "-register-all".

(** ** Characters and C strings *)

Module Text.

Definition dquote : ascii := "034"%char.
Definition backslash : ascii := "092"%char.
Definition nul : ascii := "000"%char.
Definition newline : ascii := "010"%char.
Definition nl : string := String newline EmptyString.

(** What a reader of a [const char*] sees: the bytes before the first
    terminator.  [printf]'s [%s] and [std::string(const char* )] both read
    their argument this way. *)
Fixpoint c_str (s : string) : string :=
  match s with
  | EmptyString => EmptyString
  | String c s' => if Ascii.eqb c nul then EmptyString else String c (c_str s')
  end.

Fixpoint has_nul (s : string) : bool :=
  match s with
  | EmptyString => false
  | String c s' => Ascii.eqb c nul || has_nul s'
  end.

(** [%d] applied to an [int]. *)
Definition decimal (z : Z) : string := NilZero.string_of_int (Z.to_int z).

Inductive Arg : Type :=
| AStr (s : string)
| AInt (z : Z).

(** [printf] restricted to the two conversions the header uses.  A
    conversion whose argument is missing or of the other kind (undefined
    behaviour in C, and absent from the header) writes nothing. *)
Fixpoint printf (fmt : string) (args : list Arg) : string :=
  match fmt with
  | EmptyString => EmptyString
  | String c EmptyString => String c EmptyString
  | String c (String k rest as tl) =>
      if Ascii.eqb c "%"%char then
        if Ascii.eqb k "s"%char then
          match args with
          | AStr s :: args' => c_str s ++ printf rest args'
          | _ => printf rest (List.tl args)
          end
        else if Ascii.eqb k "d"%char then
          match args with
          | AInt z :: args' => decimal z ++ printf rest args'
          | _ => printf rest (List.tl args)
          end
        else String c (printf tl args)
      else String c (printf tl args)
  end.

End Text.
Import Text.

(** ** [std::quoted] and the key order of [std::map<std::string, _>] *)

(** [out << std::quoted(s)] with the default delimiter and escape
    character: the delimiter, then every character of [s], preceded by the
    escape character when it is the delimiter or the escape character
    itself, then the delimiter. *)
Definition needs_escape (c : ascii) : bool :=
  Ascii.eqb c dquote || Ascii.eqb c backslash.

Fixpoint escape (s : string) : string :=
  match s with
  | EmptyString => EmptyString
  | String c s' =>
      if needs_escape c then String backslash (String c (escape s'))
      else String c (escape s')
  end.

Definition quoted (s : string) : string :=
  String dquote (escape s ++ String dquote EmptyString).

(** [std::less<std::string>]: bytes compared as unsigned values, a proper
    prefix before its extensions. *)
Definition key_lt (a b : string) : Prop := String.compare a b = Lt.

(** ** Value model (lines 23-64) *)

Section ValueModel.

(** The number type and the text [std::ostream::operator<<(double)] writes
    for it.  That text is decided by the C++ library and the global
    locale, not by this header. *)
Variable double : Type.
Variable put_double : double -> string.

(** [std::variant<std::string, double, Details>].  A [Details] is a
    [std::map]; it is represented by its entries in iteration order. *)
Inductive ValueType : Type :=
| VString (s : string)
| VDouble (d : double)
| VDetails (entries : list (string * ValueType)).

Definition Details : Type := list (string * ValueType).

(** [std::map::insert] of one pair: the pair is placed at its position in
    key order; when the key is already present the map is left as it is. *)
Fixpoint map_insert (kv : string * ValueType) (m : Details) : Details :=
  match m with
  | [] => [kv]
  | kv' :: m' =>
      match String.compare (fst kv) (fst kv') with
      | Lt => kv :: m
      | Eq => m
      | Gt => kv' :: map_insert kv m'
      end
  end.

(** [Details(std::initializer_list<...> args)]: the range constructor of
    [std::map], which inserts the elements of [args] from first to last
    into an empty map. *)
Definition Details_ctor (args : list (string * ValueType)) : Details :=
  fold_left (fun m kv => map_insert kv m) args [].

(** [std::map::find]. *)
Fixpoint map_find (k : string) (m : Details) : option ValueType :=
  match m with
  | [] => None
  | (k', v) :: m' => if String.eqb k k' then Some v else map_find k m'
  end.

(** The [for] loop of [operator<<(std::ostream&, const Details&)], with
    its [first] flag, over a printer for the values. *)
Fixpoint put_entries (put : ValueType -> string) (first : bool)
    (es : list (string * ValueType)) : string :=
  match es with
  | [] => EmptyString
  | (key, value) :: es' =>
      (if negb first then ", " else EmptyString)
        ++ quoted key ++ ": " ++ put value
        ++ put_entries put false es'
  end.

(** [operator<<(std::ostream&, const ValueType&)]. *)
Fixpoint put_value (value : ValueType) : string :=
  match value with
  | VString arg => quoted arg
  | VDouble arg => put_double arg
  | VDetails arg =>
      "{ " ++
      (fix loop (first : bool) (es : list (string * ValueType)) : string :=
         match es with
         | [] => EmptyString
         | (key, v) :: es' =>
             (if negb first then ", " else EmptyString)
               ++ quoted key ++ ": " ++ put_value v
               ++ loop false es'
         end) true arg
      ++ " }"
  end.

(** [operator<<(std::ostream&, const Details&)]. *)
Definition put_details (details : Details) : string :=
  "{ " ++ put_entries put_value true details ++ " }".

End ValueModel.

Arguments VString {double} s.
Arguments VDouble {double} d.
Arguments VDetails {double} entries.
Arguments map_insert {double} kv m.
Arguments Details_ctor {double} args.
Arguments map_find {double} k m.
Arguments put_entries {double} put first es.
Arguments put_value {double} put_double value.
Arguments put_details {double} put_double details.

(** A mapping that holds no number needs no number printer: the number
    type can be taken empty. *)
Definition no_double : Type := Empty_set.
Definition put_no_double (d : no_double) : string := match d with end.

(** ** Assertion state and assertion objects (lines 14-21, 67-116) *)

(** The bit-field struct: three one-bit flags and five spare bits. *)
Record AssertionState : Type := mkState {
  not_reached : bool;
  false_not_seen : bool;
  true_not_seen : bool;
  rest : Z
}.

(** [AssertionState()]. *)
Definition AssertionState_ctor : AssertionState :=
  {| not_reached := true; false_not_seen := true; true_not_seen := true;
     rest := 0 |}.

Record Assertion : Type := mkAssertion {
  state : AssertionState;
  message : string;
  function_name : string;
  file_name : string;
  line : Z;
  id : string
}.

Definition with_state (st : AssertionState) (a : Assertion) : Assertion :=
  {| state := st; message := message a; function_name := function_name a;
     file_name := file_name a; line := line a; id := id a |}.

Definition clear_not_reached (st : AssertionState) : AssertionState :=
  {| not_reached := false; false_not_seen := false_not_seen st;
     true_not_seen := true_not_seen st; rest := rest st |}.

Definition clear_false_not_seen (st : AssertionState) : AssertionState :=
  {| not_reached := not_reached st; false_not_seen := false;
     true_not_seen := true_not_seen st; rest := rest st |}.

Definition clear_true_not_seen (st : AssertionState) : AssertionState :=
  {| not_reached := not_reached st; false_not_seen := false_not_seen st;
     true_not_seen := false; rest := rest st |}.

Section Assertions.

Variable double : Type.

(** One constructor per [printf] call of the header, with the arguments
    of that call.  [DetailsOut] is the call inside [print_details]; it
    keeps the mapping that [print_details] was given. *)
Inductive Emit : Type :=
| Catalog (id file_name : string) (line : Z) (function_name message : string)
| Reached (id : string)
| FirstFalse (id message : string)
| FirstTrue (id message : string)
| DetailsOut (d : Details double).

(** The object a member function runs on, and what has been written to
    standard output so far. *)
Record World : Type := mkWorld {
  self : Assertion;
  stdout : list Emit
}.

Definition Method (A : Type) : Type := World -> A * World.

Definition ret {A : Type} (x : A) : Method A := fun w => (x, w).

Definition bind {A B : Type} (c : Method A) (k : A -> Method B) : Method B :=
  fun w => let (x, w') := c w in k x w'.

Definition this : Method Assertion := fun w => (self w, w).

Definition print (e : Emit) : Method unit :=
  fun w => (tt, {| self := self w; stdout := (stdout w ++ [e])%list |}).

Definition update_state (f : AssertionState -> AssertionState) : Method unit :=
  fun w => (tt, {| self := with_state (f (state (self w))) (self w);
                   stdout := stdout w |}).

Definition when (b : bool) (c : Method unit) : Method unit :=
  if b then c else ret tt.

Notation "x <- c ;; k" := (bind c (fun x => k))
  (at level 61, c at next level, right associativity).
Notation "c ;;; k" := (bind c (fun _ => k))
  (at level 61, right associativity).

(** [Assertion::add_to_catalog]. *)
Definition add_to_catalog : Method unit :=
  a <- this ;;
  print (Catalog (id a) (file_name a) (line a) (function_name a) (message a)).

(** [Assertion::print_details]. *)
Definition print_details (d : Details double) : Method unit :=
  print (DetailsOut d).

(** [Assertion::check_assertion_internal]. *)
Definition check_assertion_internal (cond : bool) (details : Details double)
    : Method unit :=
  a <- this ;;
  when (not_reached (state a))
    (print (Reached (id a)) ;;;
     print_details details ;;;
     update_state clear_not_reached) ;;;
  a <- this ;;
  when (negb cond && false_not_seen (state a))
    (print (FirstFalse (id a) (message a)) ;;;
     print_details details ;;;
     update_state clear_false_not_seen) ;;;
  a <- this ;;
  when (cond && true_not_seen (state a))
    (print (FirstTrue (id a) (message a)) ;;;
     print_details details ;;;
     update_state clear_true_not_seen).

(** [Assertion::check_assertion]. *)
Definition check_assertion (cond : bool) (details : Details double)
    : Method unit :=
  a <- this ;;
  when (not_reached (state a) || false_not_seen (state a)
        || true_not_seen (state a))
    (check_assertion_internal cond details).

(** The constructor: the member initialisers, then the body. *)
Definition Assertion_ctor (message function_name file_name : string)
    (line : Z) : Assertion * list Emit :=
  let a := {| state := AssertionState_ctor;
              message := message;
              function_name := function_name;
              file_name := file_name;
              line := line;
              id := c_str message ++ " in " ++ c_str function_name |} in
  let (_, w) := add_to_catalog {| self := a; stdout := [] |} in
  (self w, stdout w).

(** One call of a member function on an object: the object afterwards
    and the records the call wrote. *)
Definition call (m : Method unit) (a : Assertion) : Assertion * list Emit :=
  let (_, w) := m {| self := a; stdout := [] |} in (self w, stdout w).

(** A sequence of [check_assertion] calls on one object. *)
Fixpoint checks (cs : list (bool * Details double)) (a : Assertion)
    : Assertion * list Emit :=
  match cs with
  | [] => (a, [])
  | (cond, d) :: cs' =>
      let (a1, o1) := call (check_assertion cond d) a in
      let (a2, o2) := checks cs' a1 in
      (a2, (o1 ++ o2)%list)
  end.

(** *** What each record looks like on standard output *)

Variable put_double : double -> string.

Definition render (e : Emit) : string :=
  match e with
  | Catalog id file_name line function_name message =>
      printf
        ("There is an assertion with ID `%s` at %s:%d in `%s` with message: `%s`"
           ++ nl)
        [AStr id; AStr file_name; AInt line; AStr function_name; AStr message]
  | Reached id =>
      printf ("The assertion with ID `%s` was reached" ++ nl) [AStr id]
  | FirstFalse id message =>
      printf ("The assertion with ID `%s` saw its first false: %s" ++ nl)
        [AStr id; AStr message]
  | FirstTrue id message =>
      printf ("The assertion with ID `%s` saw its first true: %s" ++ nl)
        [AStr id; AStr message]
  | DetailsOut d =>
      printf ("Details: %s" ++ nl) [AStr (put_details put_double d)]
  end.

Definition stdout_text (out : list Emit) : string :=
  String.concat EmptyString (map render out).

End Assertions.

Arguments Catalog {double} id file_name line function_name message.
Arguments Reached {double} id.
Arguments FirstFalse {double} id message.
Arguments FirstTrue {double} id message.
Arguments DetailsOut {double} d.
Arguments check_assertion {double} cond details.
Arguments check_assertion_internal {double} cond details.
Arguments add_to_catalog {double}.
Arguments Assertion_ctor double message function_name file_name line : assert.
Arguments call {double} m a.
Arguments checks {double} cs a.
Arguments render {double} put_double e.
Arguments stdout_text {double} put_double out.

(** ** Call sites (lines 147-165) *)

(** The template arguments of [CatalogEntry]: one instantiation per
    distinct tuple, each with its own static [assertion]. *)
Record CatalogEntry : Type := mkEntry {
  ce_message : string;
  ce_file_name : string;
  ce_function_name : string;
  ce_line : Z
}.

Definition CatalogEntry_eq_dec (x y : CatalogEntry) : {x = y} + {x <> y}.
Proof.
  decide equality; first [apply string_dec | apply Z.eq_dec].
Defined.

(** A static object of a program.  [CatalogEntry] is declared in an unnamed
    namespace (line 121), so every translation unit that includes the
    header has a [CatalogEntry] template of its own, and with it a static
    [assertion] of its own for each tuple of template arguments it
    instantiates. *)
Record Site : Type := mkSite {
  unit_of : nat;
  entry_of : CatalogEntry
}.

Definition Site_eq_dec (x y : Site) : {x = y} + {x <> y}.
Proof.
  decide equality; first [apply CatalogEntry_eq_dec | apply Nat.eq_dec].
Defined.

Definition same_site (s s' : Site) : bool :=
  if Site_eq_dec s s' then true else false.

(** The storage of a static object before its dynamic initialisation has
    run: all bits zero.  A call made that early reads only the three flags
    (line 85), and reads them as false. *)
Definition zero_initialised : Assertion :=
  {| state := {| not_reached := false; false_not_seen := false;
                 true_not_seen := false; rest := 0 |};
     message := EmptyString;
     function_name := EmptyString;
     file_name := EmptyString;
     line := 0;
     id := EmptyString |}.

Section Process.

Variable double : Type.

(** [CatalogEntry<...>::create]. *)
Definition create (e : CatalogEntry) : Assertion * list (Emit double) :=
  Assertion_ctor double (ce_message e) (ce_function_name e)
    (ce_file_name e) (ce_line e).

(** The static objects of the process and everything written so far, each
    record tagged with the object that wrote it. *)
Record Process : Type := mkProcess {
  statics : Site -> Assertion;
  written : list (Site * Emit double)
}.

(** Program start: every static object is zero-initialised and nothing
    has been written. *)
Definition start : Process :=
  {| statics := fun _ => zero_initialised; written := [] |}.

Definition tagged (s : Site) (out : list (Emit double))
    : list (Site * Emit double) :=
  map (pair s) out.

Definition store (s : Site) (a : Assertion) (st : Site -> Assertion)
    : Site -> Assertion :=
  fun s' => if same_site s' s then a else st s'.

(** The dynamic initialisation of one [CatalogEntry<...>::assertion]
    (line 153): [create()] constructs the object in place. *)
Definition initialise (s : Site) (p : Process) : Process :=
  let (a, out) := create (entry_of s) in
  {| statics := store s a (statics p);
     written := (written p ++ tagged s out)%list |}.

(** One execution of [ANTITHESIS_ASSERT_RAW(cond, message, ...)] at the
    site [s]: [check_assertion] on the static object of the site, as it is
    at that moment, with the mapping built from the remaining macro
    arguments. *)
Definition ANTITHESIS_ASSERT_RAW (s : Site) (cond : bool)
    (args : list (string * ValueType double)) (p : Process) : Process :=
  let (a', out) :=
    call (check_assertion cond (Details_ctor args)) (statics p s) in
  {| statics := store s a' (statics p);
     written := (written p ++ tagged s out)%list |}.

(** What happens in a process, in the order it happens.  The
    initialisation of a static member of a class template is unordered:
    it can come before, between or after the initialisations of other
    objects and the calls that other initialisers make. *)
Inductive Event : Type :=
| Init (s : Site)
| Macro (s : Site) (cond : bool) (args : list (string * ValueType double)).

Definition step (p : Process) (ev : Event) : Process :=
  match ev with
  | Init s => initialise s p
  | Macro s cond args => ANTITHESIS_ASSERT_RAW s cond args p
  end.

Definition execute (events : list Event) : Process :=
  fold_left step events start.

End Process.

Arguments create double e : assert.
Arguments statics {double} p.
Arguments written {double} p.
Arguments start {double}.
Arguments tagged {double} s out.
Arguments initialise {double} s p.
Arguments ANTITHESIS_ASSERT_RAW {double} s cond args p.
Arguments Init {double} s.
Arguments Macro {double} s cond args.
Arguments step {double} p ev.
Arguments execute {double} events.

(** ** Vocabulary of the statements *)

Section Vocabulary.

Variable double : Type.

Definition keys (l : list (string * ValueType double)) : list string :=
  map fst l.

Definition entry_lt (x y : string * ValueType double) : Prop :=
  key_lt (fst x) (fst y).

(** The entries are in strictly ascending key order. *)
Definition ascending (m : Details double) : Prop :=
  StronglySorted entry_lt m.

(** The value of the first, and of the last, pair with key [k] in a list
    of pairs as it was supplied. *)
Fixpoint first_supplied (k : string) (l : list (string * ValueType double))
    : option (ValueType double) :=
  match l with
  | [] => None
  | (k', v) :: l' => if String.eqb k k' then Some v else first_supplied k l'
  end.

Definition last_supplied (k : string) (l : list (string * ValueType double))
    : option (ValueType double) :=
  first_supplied k (rev l).

(** The text that lists the pairs of [l] exactly in the order of [l]. *)
Definition text_in_order (put_double : double -> string)
    (l : list (string * ValueType double)) : string :=
  "{ " ++ put_entries (put_value put_double) true l ++ " }".

Definition is_catalog (e : Emit double) : bool :=
  match e with Catalog _ _ _ _ _ => true | _ => false end.

Definition is_reached (e : Emit double) : bool :=
  match e with Reached _ => true | _ => false end.

Definition is_first_false (e : Emit double) : bool :=
  match e with FirstFalse _ _ => true | _ => false end.

Definition is_first_true (e : Emit double) : bool :=
  match e with FirstTrue _ _ => true | _ => false end.

(** The catalog record of the site [e]. *)
Definition catalog_of (e : CatalogEntry) : Emit double :=
  Catalog (c_str (ce_message e) ++ " in " ++ c_str (ce_function_name e))
    (ce_file_name e) (ce_line e) (ce_function_name e) (ce_message e).

(** How many records of a category a run wrote. *)
Definition count (p : Emit double -> bool) (out : list (Emit double)) : nat :=
  length (filter p out).

End Vocabulary.

Arguments keys {double} l : simpl never.
Arguments entry_lt {double} x y.
Arguments ascending {double} m.
Arguments first_supplied {double} k l.
Arguments last_supplied {double} k l.
Arguments text_in_order {double} put_double l.
Arguments is_catalog {double} e.
Arguments is_reached {double} e.
Arguments is_first_false {double} e.
Arguments is_first_true {double} e.
Arguments count {double} p out.
Arguments catalog_of double e : assert.





(** The record formats with the double-quote delimiters, as documented. *)
Definition dq : string := String dquote EmptyString.

Definition documented_catalog_line (id file_name : string) (line : Z)
    (function_name message : string) : string :=
  "There is an assertion with ID " ++ dq ++ id ++ dq ++ " at " ++ file_name
    ++ ":" ++ decimal line ++ " in " ++ dq ++ function_name ++ dq
    ++ " with message: " ++ dq ++ message ++ dq ++ nl.

Definition documented_reached_line (id : string) : string :=
  "The assertion with ID " ++ dq ++ id ++ dq ++ " was reached" ++ nl.

(** ** Further vocabulary: records of one object, records of one site *)

Section Records.

Variable double : Type.

Definition is_details (e : Emit double) : bool :=
  match e with DetailsOut _ => true | _ => false end.

Definition is_transition (e : Emit double) : bool :=
  is_reached e || is_first_false e || is_first_true e.

(** The records come in pairs: a transition record, then a details
    record. *)
Fixpoint paired (out : list (Emit double)) : bool :=
  match out with
  | [] => true
  | t :: DetailsOut _ :: out' => is_transition t && paired out'
  | _ => false
  end.

(** A record that the object [a] can have written in a call whose details
    are among [ds]. *)
Definition written_by (a : Assertion) (ds : list (Details double))
    (e : Emit double) : Prop :=
  match e with
  | Catalog _ _ _ _ _ => False
  | Reached i => i = id a
  | FirstFalse i m => i = id a /\ m = message a
  | FirstTrue i m => i = id a /\ m = message a
  | DetailsOut d => In d ds
  end.

(** [ev] is the initialisation of the object [s]. *)
Definition is_init (s : Site) (ev : Event double) : bool :=
  match ev with
  | Init s' => same_site s' s
  | Macro _ _ _ => false
  end.

(** The records of the object [s] in what a process wrote, in order. *)
Definition records_of (s : Site) (w : list (Site * Emit double))
    : list (Emit double) :=
  map snd (filter (fun r => same_site (fst r) s) w).

(** The calls made at the site [s] among the events, in order, as calls
    of [check_assertion]. *)
Fixpoint calls_at (s : Site) (events : list (Event double))
    : list (bool * Details double) :=
  match events with
  | [] => []
  | Init _ :: events' => calls_at s events'
  | Macro s' cond args :: events' =>
      if same_site s' s then (cond, Details_ctor args) :: calls_at s events'
      else calls_at s events'
  end.

(** The catalog records written for the identity [e], by whatever object,
    in order. *)
Definition catalog_records_of_identity (e : CatalogEntry)
    (w : list (Site * Emit double)) : list (Emit double) :=
  map snd
    (filter
       (fun r =>
          (if CatalogEntry_eq_dec (entry_of (fst r)) e then true else false)
          && is_catalog (snd r))
       w).

End Records.

Arguments is_details {double} e.
Arguments is_transition {double} e.
Arguments paired {double} out.
Arguments written_by {double} a ds e.
Arguments is_init {double} s ev.
Arguments records_of {double} s w.
Arguments calls_at {double} s events.
Arguments catalog_records_of_identity {double} e w.

(** The text of one entry of a mapping, as the loop writes it. *)
Definition entry_text {double : Type} (put_double : double -> string)
    (kv : string * ValueType double) : string :=
  quoted (fst kv) ++ ": " ++ put_value put_double (snd kv).

(** ** Compile-time strings of a call site (lines 122-145, 157) *)

(** The largest [int]: the loop counters of the header are [int]s, and
    incrementing one past this value is undefined. *)
Definition INT_MAX : Z := 2147483647.

(** The elements of a [std::array<char, N>]; an element is [None] while
    nothing has been stored in it. *)
Definition storage : Type := list (option ascii).

Definition uninitialised (N : nat) : storage := repeat None N.

(** The elements that hold the characters of [s]. *)
Definition cells (s : string) : storage := map Some (list_ascii_of_string s).

(** [a[i] = c], for [i] inside the array. *)
Fixpoint put_at (i : nat) (c : ascii) (a : storage) : storage :=
  match a, i with
  | [], _ => []
  | _ :: a', O => Some c :: a'
  | x :: a', S i' => x :: put_at i' c a'
  end.

(** [fixed_string<N>], with [N] the number of elements of [contents]. *)
Record fixed_string : Type := mkFixed { contents : storage }.

(** [for(int i=0; i<N; i++) contents[i] = 0;] from the counter value [i]
    on, with [n] the number of indices from [i] up to [N].  The result is
    [None] when the counter would be incremented past [INT_MAX]. *)
Fixpoint fill_zero (n : nat) (i : Z) (a : storage) : option storage :=
  match n with
  | O => Some a
  | S n' =>
      let a' := put_at (Z.to_nat i) nul a in
      if (i <? INT_MAX)%Z then fill_zero n' (i + 1)%Z a' else None
  end.

(** [fixed_string()]. *)
Definition fixed_string_default (N : nat) : option fixed_string :=
  option_map mkFixed (fill_zero N 0 (uninitialised N)).

(** [for(int i=0; i<N; i++) contents[i] = arr[i];], in the same way.
    Reading [arr] past its last element gives [None]. *)
Fixpoint copy_array (n : nat) (i : Z) (arr : string) (a : storage)
    : option storage :=
  match n with
  | O => Some a
  | S n' =>
      match String.get (Z.to_nat i) arr with
      | None => None
      | Some c =>
          let a' := put_at (Z.to_nat i) c a in
          if (i <? INT_MAX)%Z then copy_array n' (i + 1)%Z arr a' else None
      end
  end.

(** [fixed_string(const char (&arr)[N])]: [N] is the size of the array,
    terminator included when [arr] is a string literal. *)
Definition fixed_string_of_array (arr : string) : option fixed_string :=
  option_map mkFixed
    (copy_array (String.length arr) 0 arr (uninitialised (String.length arr))).

(** [for(int i=0; i<N && foo[i]; i++) it.contents[i] = foo[i];], where
    [foo] is the array the pointer points into. *)
Fixpoint copy_c_str (n : nat) (i : Z) (foo : string) (a : storage)
    : option storage :=
  match n with
  | O => Some a
  | S n' =>
      match String.get (Z.to_nat i) foo with
      | None => None
      | Some c =>
          if Ascii.eqb c nul then Some a
          else
            let a' := put_at (Z.to_nat i) c a in
            if (i <? INT_MAX)%Z then copy_c_str n' (i + 1)%Z foo a' else None
      end
  end.

(** [fixed_string<N>::from_c_str]. *)
Definition from_c_str (N : nat) (foo : string) : option fixed_string :=
  match fixed_string_default N with
  | Some it => option_map mkFixed (copy_c_str N 0 foo (contents it))
  | None => None
  end.

(** What a reader of [c_str()] sees: the characters of [contents] before
    the first terminator; [None] when the reader meets an element never
    stored or the end of the array first. *)
Fixpoint read_c_str (a : storage) : option string :=
  match a with
  | [] => None
  | None :: _ => None
  | Some c :: a' =>
      if Ascii.eqb c nul then Some EmptyString
      else option_map (String c) (read_c_str a')
  end.

Definition fixed_c_str (f : fixed_string) : option string :=
  read_c_str (contents f).

(** [string_length]: the loop [for(int l = 0; ; l++) if (!s[l]) return l;]
    with [s] the array from index [l] on. *)
Fixpoint string_length_from (l : Z) (s : string) : option Z :=
  match s with
  | EmptyString => None
  | String c s' =>
      if Ascii.eqb c nul then Some l
      else if (l <? INT_MAX)%Z then string_length_from (l + 1)%Z s' else None
  end.

Definition string_length (s : string) : option Z := string_length_from 0 s.

(** The macro [FIXED_STRING_FROM_C_STR(s)]. *)
Definition FIXED_STRING_FROM_C_STR (s : string) : option fixed_string :=
  match string_length s with
  | Some l => from_c_str (Z.to_nat (l + 1)) s
  | None => None
  end.

(** The characters of an array all of whose elements have been stored. *)
Fixpoint cells_text (a : storage) : option string :=
  match a with
  | [] => Some EmptyString
  | Some c :: a' => option_map (String c) (cells_text a')
  | None :: _ => None
  end.


(** A reader for quoted text, to state that the written form can be read
    back: after the opening quote, characters are taken up to the first
    quote that no backslash precedes, a backslash making the next character
    literal.  The result is the string read and the text left over. *)
Fixpoint read_body (t : string) : option (string * string) :=
  match t with
  | EmptyString => None
  | String c t' =>
      if Ascii.eqb c dquote then Some (EmptyString, t')
      else if Ascii.eqb c backslash then
        match t' with
        | EmptyString => None
        | String c' t'' =>
            match read_body t'' with
            | Some (s, r) => Some (String c' s, r)
            | None => None
            end
        end
      else
        match read_body t' with
        | Some (s, r) => Some (String c s, r)
        | None => None
        end
  end.

Definition read_quoted (t : string) : option (string * string) :=
  match t with
  | EmptyString => None
  | String c t' => if Ascii.eqb c dquote then read_body t' else None
  end.

(** * Properties *)

(** ** Text *)

Lemma put_value_details (double : Type) (put : double -> string)
    (m : Details double) :
  put_value put (VDetails m) = put_details put m.
Proof.
  unfold put_details. cbn [put_value]. do 2 f_equal.
  match goal with
  | |- ?loop true m = _ =>
      enough (H : forall b, loop b m = put_entries (put_value put) b m) by apply H
  end.
  induction m as [|[k v] m IH]; intro b; [reflexivity|].
  cbn [put_entries]. rewrite <- IH. reflexivity.
Qed.

Lemma c_str_no_nul (s : string) : has_nul (c_str s) = false.
Proof.
  induction s as [|c s IH]; cbn; [reflexivity|].
  destruct (Ascii.eqb c nul) eqn:E; cbn; [reflexivity|].
  now rewrite E.
Qed.

Lemma c_str_id (s : string) : has_nul s = false -> c_str s = s.
Proof.
  induction s as [|c s IH]; cbn; [reflexivity|].
  destruct (Ascii.eqb c nul); cbn; [discriminate|].
  intro H. now rewrite IH.
Qed.

Lemma has_nul_app (s t : string) :
  has_nul (s ++ t) = has_nul s || has_nul t.
Proof.
  induction s as [|c s IH]; cbn; [reflexivity|].
  now rewrite IH, orb_assoc.
Qed.

(** The ID computed by the constructor reads back unchanged through [%s]. *)
Lemma c_str_id_field (m f : string) :
  c_str (c_str m ++ " in " ++ c_str f) = c_str m ++ " in " ++ c_str f.
Proof.
  apply c_str_id. rewrite !has_nul_app, !c_str_no_nul. reflexivity.
Qed.

(** An empty mapping is written as an empty pair of braces, and nested
    mappings are written in place. *)
Example empty_details_text :
  put_details put_no_double (Details_ctor []) = "{  }".
Proof. reflexivity. Qed.

Example nested_details_text :
  put_details put_no_double
    (Details_ctor [("s", VString "v"); ("n", VDetails (Details_ctor []))])
  = "{ " ++ quoted "n" ++ ": {  }, " ++ quoted "s" ++ ": " ++ quoted "v" ++ " }".
Proof. reflexivity. Qed.

(** ** Key order *)

Lemma ascii_compare_refl (c : ascii) : Ascii.compare c c = Eq.
Proof. unfold Ascii.compare. apply N.compare_refl. Qed.

Lemma compare_refl (s : string) : String.compare s s = Eq.
Proof.
  induction s as [|c s IH]; cbn; [reflexivity|].
  now rewrite ascii_compare_refl.
Qed.

Lemma compare_eq (a b : string) : String.compare a b = Eq <-> a = b.
Proof.
  split; [apply String.compare_eq_iff|]. intros ->. apply compare_refl.
Qed.

Lemma compare_gt_lt (a b : string) :
  String.compare a b = Gt <-> String.compare b a = Lt.
Proof.
  rewrite (String.compare_antisym b a).
  destruct (String.compare a b); cbn; split; congruence.
Qed.

Lemma key_lt_irrefl (a : string) : ~ key_lt a a.
Proof. unfold key_lt. rewrite compare_refl. discriminate. Qed.

Lemma key_lt_trans (a b c : string) : key_lt a b -> key_lt b c -> key_lt a c.
Proof.
  unfold key_lt. revert b c.
  induction a as [|x a IH]; intros [|y b] [|z c]; cbn; try congruence.
  unfold Ascii.compare.
  destruct (N.compare_spec (N_of_ascii x) (N_of_ascii y)) as [Exy|Lxy|Gxy];
    try discriminate;
    destruct (N.compare_spec (N_of_ascii y) (N_of_ascii z)) as [Eyz|Lyz|Gyz];
    try discriminate; intros H1 H2.
  - rewrite Exy, Eyz, N.compare_refl. eapply IH; eassumption.
  - rewrite Exy. now apply N.compare_lt_iff in Lyz as ->.
  - rewrite <- Eyz. now apply N.compare_lt_iff in Lxy as ->.
  - assert (L : (N_of_ascii x < N_of_ascii z)%N) by lia.
    now apply N.compare_lt_iff in L as ->.
Qed.

Lemma key_lt_neq (a b : string) : key_lt a b -> a <> b.
Proof. intros H ->. exact (key_lt_irrefl _ H). Qed.

Lemma eqb_of_lt (a b : string) : key_lt a b -> String.eqb a b = false.
Proof. intro H. apply String.eqb_neq. now apply key_lt_neq. Qed.

(** ** The map behind [Details] *)

Section MapTheory.

Variable double : Type.
Implicit Types (m l : list (string * ValueType double)).
Implicit Types (kv : string * ValueType double).

Lemma keys_cons kv l : keys (kv :: l) = fst kv :: keys l.
Proof. reflexivity. Qed.

Lemma keys_nil : keys (@nil (string * ValueType double)) = [].
Proof. reflexivity. Qed.

Lemma entry_lt_trans kv1 kv2 kv3 :
  entry_lt kv1 kv2 -> entry_lt kv2 kv3 -> entry_lt kv1 kv3.
Proof. apply key_lt_trans. Qed.

Lemma map_insert_In kv m x :
  In x (map_insert kv m) -> x = kv \/ In x m.
Proof.
  induction m as [|kv' m IH]; cbn.
  - intros [<-|[]]. now left.
  - destruct (String.compare (fst kv) (fst kv')); cbn.
    + now right.
    + intros [<-|H]; [now left | now right].
    + intros [<-|H]; [right; now left|].
      destruct (IH H) as [->|H']; [now left | right; now right].
Qed.

Lemma map_insert_ascending kv m :
  ascending m -> ascending (map_insert kv m).
Proof.
  unfold ascending. induction m as [|kv' m IH]; cbn; intro S.
  - repeat constructor.
  - apply StronglySorted_inv in S as [Sm Fm].
    destruct (String.compare (fst kv) (fst kv')) eqn:E.
    + now constructor.
    + constructor; [now constructor|].
      constructor; [exact E|].
      eapply Forall_impl; [|exact Fm].
      intros x Hx. eapply entry_lt_trans; [exact E | exact Hx].
    + constructor; [now apply IH|].
      apply Forall_forall. intros x Hx.
      apply map_insert_In in Hx as [->|Hx].
      * now apply compare_gt_lt.
      * rewrite Forall_forall in Fm. now apply Fm.
Qed.

Lemma fold_insert_ascending l m :
  ascending m -> ascending (fold_left (fun m kv => map_insert kv m) l m).
Proof.
  revert m. induction l as [|kv l IH]; cbn; intros m S; [exact S|].
  now apply IH, map_insert_ascending.
Qed.

Lemma Details_ctor_ascending l : ascending (Details_ctor l).
Proof. apply fold_insert_ascending. constructor. Qed.

Lemma keys_map_insert kv m k :
  In k (keys (map_insert kv m)) <-> k = fst kv \/ In k (keys m).
Proof.
  induction m as [|kv' m IH]; cbn [map_insert].
  - rewrite keys_cons, keys_nil. cbn. intuition.
  - destruct (String.compare (fst kv) (fst kv')) eqn:E;
      rewrite ?keys_cons; cbn [In].
    + apply compare_eq in E. rewrite E. intuition.
    + intuition.
    + rewrite IH. intuition.
Qed.

Lemma keys_fold_insert l m k :
  In k (keys (fold_left (fun m kv => map_insert kv m) l m))
  <-> In k (keys l) \/ In k (keys m).
Proof.
  revert m. induction l as [|kv l IH]; cbn [fold_left]; intro m.
  - rewrite keys_nil. cbn. intuition.
  - rewrite IH, keys_map_insert, keys_cons. cbn. intuition.
Qed.

Lemma keys_Details_ctor l k :
  In k (keys (Details_ctor l)) <-> In k (keys l).
Proof.
  unfold Details_ctor. rewrite keys_fold_insert, keys_nil. cbn. intuition.
Qed.

Lemma map_insert_fresh kv m :
  ~ In (fst kv) (keys m) -> Permutation (kv :: m) (map_insert kv m).
Proof.
  induction m as [|kv' m IH]; cbn [map_insert]; intro N; [reflexivity|].
  rewrite keys_cons in N.
  destruct (String.compare (fst kv) (fst kv')) eqn:E.
  - apply compare_eq in E. exfalso. apply N. left. now symmetry.
  - reflexivity.
  - rewrite perm_swap. apply perm_skip, IH. intro H. apply N. now right.
Qed.

Lemma fold_insert_fresh l m :
  NoDup (keys l) ->
  (forall k, In k (keys l) -> ~ In k (keys m)) ->
  Permutation (l ++ m)%list (fold_left (fun m kv => map_insert kv m) l m).
Proof.
  revert m. induction l as [|kv l IH]; cbn [fold_left app]; intros m N D;
    [reflexivity|].
  rewrite keys_cons in N, D.
  inversion N as [|? ? Nk Nl]; subst.
  rewrite <- IH.
  - rewrite <- map_insert_fresh by (apply D; now left).
    apply Permutation_middle.
  - exact Nl.
  - intros k Hk. rewrite keys_map_insert. intros [->|Hm].
    + now apply Nk.
    + apply (D k); [now right | exact Hm].
Qed.

Lemma Details_ctor_fresh l :
  NoDup (keys l) -> Permutation l (Details_ctor l).
Proof.
  intro N. unfold Details_ctor.
  rewrite <- fold_insert_fresh; [now rewrite app_nil_r | exact N |].
  intros k _ [].
Qed.

(** Two ascending lists with the same entries are the same list. *)
Lemma ascending_unique m1 m2 :
  ascending m1 -> ascending m2 -> Permutation m1 m2 -> m1 = m2.
Proof.
  unfold ascending. revert m2.
  induction m1 as [|x m1 IH]; intros m2 S1 S2 P.
  - apply Permutation_nil in P. now subst.
  - destruct m2 as [|y m2].
    + apply Permutation_sym, Permutation_nil in P. discriminate.
    + apply StronglySorted_inv in S1 as [S1 F1].
      apply StronglySorted_inv in S2 as [S2 F2].
      rewrite Forall_forall in F1, F2.
      assert (x = y) as <-.
      { assert (Hx : In x (y :: m2))
          by (eapply Permutation_in; [exact P | now left]).
        assert (Hy : In y (x :: m1))
          by (eapply Permutation_in; [symmetry; exact P | now left]).
        destruct Hx as [->|Hx]; [reflexivity|].
        destruct Hy as [->|Hy]; [reflexivity|].
        exfalso. apply (key_lt_irrefl (fst x)).
        eapply key_lt_trans; [apply (F1 y Hy) | apply (F2 x Hx)]. }
      f_equal. apply IH; try assumption.
      eapply Permutation_cons_inv; exact P.
Qed.

Lemma ascending_NoDup m : ascending m -> NoDup (keys m).
Proof.
  unfold ascending, keys.
  induction 1 as [|x l S IH F]; cbn; constructor; [|exact IH].
  intro H. apply in_map_iff in H as [y [E Hy]].
  rewrite Forall_forall in F. specialize (F y Hy).
  unfold entry_lt in F. rewrite E in F. exact (key_lt_irrefl _ F).
Qed.

Lemma ascending_is_fixed l : ascending l -> Details_ctor l = l.
Proof.
  intro S. apply ascending_unique.
  - apply Details_ctor_ascending.
  - exact S.
  - symmetry. apply Details_ctor_fresh.
    now apply ascending_NoDup.
Qed.

Lemma map_find_above k m :
  Forall (fun x => key_lt k (fst x)) m -> map_find k m = None.
Proof.
  induction 1 as [|[k' v] m H F IH]; cbn; [reflexivity|].
  cbn in H. now rewrite (eqb_of_lt _ _ H).
Qed.

Lemma map_find_insert k k' v m :
  ascending m ->
  map_find k (map_insert (k', v) m)
  = match map_find k m with
    | Some x => Some x
    | None => if String.eqb k k' then Some v else None
    end.
Proof.
  unfold ascending. induction 1 as [|[k1 v1] m S IH F]; cbn; [reflexivity|].
  destruct (String.compare k' k1) eqn:E; cbn.
  - apply compare_eq in E. subst k1.
    destruct (String.eqb k k'); [reflexivity|].
    now destruct (map_find k m).
  - destruct (String.eqb k k') eqn:Ek.
    + apply String.eqb_eq in Ek. subst k'.
      rewrite (eqb_of_lt _ _ E).
      rewrite map_find_above; [reflexivity|].
      eapply Forall_impl; [|exact F].
      intros x Hx. eapply key_lt_trans; [exact E | exact Hx].
    + destruct (String.eqb k k1); [reflexivity|].
      now destruct (map_find k m).
  - destruct (String.eqb k k1); [reflexivity | exact IH].
Qed.

Lemma map_find_fold k l m :
  ascending m ->
  map_find k (fold_left (fun m kv => map_insert kv m) l m)
  = match map_find k m with
    | Some x => Some x
    | None => first_supplied k l
    end.
Proof.
  revert m. induction l as [|[k' v] l IH]; cbn; intros m S.
  - now destruct (map_find k m).
  - rewrite IH by now apply map_insert_ascending.
    rewrite map_find_insert by exact S.
    destruct (map_find k m); [reflexivity|].
    now destruct (String.eqb k k').
Qed.

End MapTheory.

(** ** Joining the entries of a mapping *)

Lemma append_assoc (s t u : string) : (s ++ t) ++ u = s ++ t ++ u.
Proof. induction s as [|c s IH]; cbn; [reflexivity | now rewrite IH]. Qed.

Lemma append_nil_r (s : string) : s ++ EmptyString = s.
Proof. induction s as [|c s IH]; cbn; [reflexivity | now rewrite IH]. Qed.

Lemma length_append (s t : string) :
  String.length (s ++ t) = String.length s + String.length t.
Proof. induction s as [|c s IH]; cbn; [reflexivity | now rewrite IH]. Qed.

Lemma put_entries_cons (double : Type) (put : ValueType double -> string)
    (b : bool) (k : string) (v : ValueType double)
    (es : list (string * ValueType double)) :
  put_entries put b ((k, v) :: es)
  = (if negb b then ", " else EmptyString) ++ quoted k ++ ": " ++ put v
      ++ put_entries put false es.
Proof. reflexivity. Qed.

Lemma concat_cons2 (sep x y : string) (l : list string) :
  String.concat sep (x :: y :: l) = x ++ sep ++ String.concat sep (y :: l).
Proof. reflexivity. Qed.

Lemma put_entries_join (double : Type) (put : double -> string) (b : bool)
    (kv : string * ValueType double) (es : list (string * ValueType double)) :
  put_entries (put_value put) b (kv :: es)
  = (if b then EmptyString else ", ")
      ++ String.concat ", " (map (entry_text put) (kv :: es)).
Proof.
  revert b kv. induction es as [|kv' es IH]; intros b [k v].
  - cbn [put_entries map String.concat]. unfold entry_text. cbn [fst snd].
    destruct b; cbn [negb]; now rewrite ?append_assoc, ?append_nil_r.
  - rewrite put_entries_cons, (IH false kv').
    cbn [map]. rewrite concat_cons2.
    change (entry_text put (k, v)) with (quoted k ++ ": " ++ put_value put v).
    destruct b; cbn [negb]; now rewrite ?append_assoc.
Qed.

Lemma put_details_join (double : Type) (put : double -> string)
    (m : Details double) :
  put_details put m
  = "{ " ++ String.concat ", " (map (entry_text put) m) ++ " }".
Proof.
  unfold put_details. destruct m as [|kv m]; [reflexivity|].
  now rewrite put_entries_join.
Qed.

(** ** Serialisation order and duplicate keys *)

(** C5 (amended).  For a list of pairs with pairwise-distinct keys, the
    serialised text is the brace-enclosed list, separated by a comma and a
    space, of the entry texts of exactly the supplied pairs in strictly
    ascending byte-wise order of their keys; this is the order of supply
    when, and only because, the pairs were supplied in ascending key
    order. *)
Theorem Details_text_lists_in_key_order (double : Type)
    (put : double -> string) (l : list (string * ValueType double)) :
  NoDup (keys l) ->
  exists l',
    Permutation l l' /\ ascending l' /\
    put_details put (Details_ctor l)
    = "{ " ++ String.concat ", " (map (entry_text put) l') ++ " }" /\
    (ascending l -> l' = l).
Proof.
  intro N. exists (Details_ctor l). repeat split.
  - now apply Details_ctor_fresh.
  - apply Details_ctor_ascending.
  - apply put_details_join.
  - apply ascending_is_fixed.
Qed.

Lemma Details_text_lists_in_key_order_witness :
  NoDup (keys (double := no_double) [("b", VString "1"); ("a", VString "2")]) /\
  exists l',
    Permutation [("b", VString "1"); ("a", VString "2")] l' /\ ascending l' /\
    put_details put_no_double
      (Details_ctor [("b", VString "1"); ("a", VString "2")])
    = "{ " ++ String.concat ", " (map (entry_text put_no_double) l') ++ " }" /\
    (ascending (double := no_double) [("b", VString "1"); ("a", VString "2")] ->
     l' = [("b", VString "1"); ("a", VString "2")]).
Proof.
  assert (N : NoDup (keys (double := no_double)
                       [("b", VString "1"); ("a", VString "2")])).
  { unfold keys; cbn. repeat constructor; cbn; intuition discriminate. }
  split; [exact N|].
  exact (Details_text_lists_in_key_order no_double put_no_double _ N).
Defined.

(** C5 as stated fails: the pairs "b" then "a" are written "a" then "b". *)
Lemma supplied_order_is_not_kept :
  NoDup (keys (double := no_double) [("b", VString "1"); ("a", VString "2")]) /\
  put_details put_no_double
    (Details_ctor [("b", VString "1"); ("a", VString "2")])
  = "{ " ++ quoted "a" ++ ": " ++ quoted "2" ++ ", "
         ++ quoted "b" ++ ": " ++ quoted "1" ++ " }" /\
  text_in_order put_no_double [("b", VString "1"); ("a", VString "2")]
  = "{ " ++ quoted "b" ++ ": " ++ quoted "1" ++ ", "
         ++ quoted "a" ++ ": " ++ quoted "2" ++ " }" /\
  put_details put_no_double
    (Details_ctor [("b", VString "1"); ("a", VString "2")])
  <> text_in_order put_no_double [("b", VString "1"); ("a", VString "2")].
Proof.
  split; [|split; [|split]].
  - unfold keys; cbn. repeat constructor; cbn; intuition discriminate.
  - reflexivity.
  - reflexivity.
  - vm_compute. discriminate.
Qed.

(** C10.  Two lists holding the same pairs with pairwise-distinct keys, in
    any order, build the same mapping and serialise to the same text, and
    that text is the brace-enclosed, comma-separated list of the entry
    texts of the supplied pairs in strictly ascending key order. *)
Theorem Details_text_ignores_supply_order (double : Type)
    (put : double -> string) (l1 l2 : list (string * ValueType double)) :
  NoDup (keys l1) ->
  Permutation l1 l2 ->
  put_details put (Details_ctor l1) = put_details put (Details_ctor l2) /\
  put_details put (Details_ctor l1)
  = "{ " ++ String.concat ", " (map (entry_text put) (Details_ctor l1)) ++ " }" /\
  ascending (Details_ctor l1) /\
  Permutation l1 (Details_ctor l1).
Proof.
  intros N P.
  assert (N2 : NoDup (keys l2)).
  { unfold keys in *. eapply Permutation_NoDup; [|exact N].
    now apply Permutation_map. }
  assert (E : Details_ctor l1 = Details_ctor l2).
  { apply ascending_unique; try apply Details_ctor_ascending.
    rewrite <- (Details_ctor_fresh _ l1 N), <- (Details_ctor_fresh _ l2 N2).
    exact P. }
  split; [now rewrite E|]. split; [apply put_details_join|]. split.
  - apply Details_ctor_ascending.
  - now apply Details_ctor_fresh.
Qed.

Lemma Details_text_ignores_supply_order_witness :
  NoDup (keys (double := no_double)
           [("b", VString "1"); ("a", VDetails []); ("c", VString "3")]) /\
  Permutation (A := string * ValueType no_double)
    [("b", VString "1"); ("a", VDetails []); ("c", VString "3")]
    [("c", VString "3"); ("b", VString "1"); ("a", VDetails [])] /\
  put_details put_no_double
    (Details_ctor [("b", VString "1"); ("a", VDetails []); ("c", VString "3")])
  = put_details put_no_double
      (Details_ctor [("c", VString "3"); ("b", VString "1"); ("a", VDetails [])]) /\
  put_details put_no_double
    (Details_ctor [("b", VString "1"); ("a", VDetails []); ("c", VString "3")])
  = "{ " ++ quoted "a" ++ ": {  }, " ++ quoted "b" ++ ": " ++ quoted "1" ++ ", "
         ++ quoted "c" ++ ": " ++ quoted "3" ++ " }".
Proof.
  assert (N : NoDup (keys (double := no_double)
             [("b", VString "1"); ("a", VDetails []); ("c", VString "3")])).
  { unfold keys; cbn. repeat constructor; cbn; intuition discriminate. }
  assert (P : Permutation (A := string * ValueType no_double)
             [("b", VString "1"); ("a", VDetails []); ("c", VString "3")]
             [("c", VString "3"); ("b", VString "1"); ("a", VDetails [])]).
  { apply Permutation_sym.
    apply (Permutation_cons_app [("b", VString "1"); ("a", VDetails [])] []).
    reflexivity. }
  split; [exact N|]. split; [exact P|].
  pose proof (Details_text_ignores_supply_order no_double put_no_double _ _ N P)
    as (E & T & _).
  split; [exact E | exact T].
Defined.

(** C6 (amended).  The mapping built from any list of pairs holds each
    supplied key exactly once and no other key, and the value kept for a
    key is the first one supplied for it: a later pair with a key already
    present is dropped. *)
Theorem Details_first_write_wins (double : Type)
    (l : list (string * ValueType double)) (k : string) :
  NoDup (keys (Details_ctor l)) /\
  (In k (keys (Details_ctor l)) <-> In k (keys l)) /\
  map_find k (Details_ctor l) = first_supplied k l.
Proof.
  split; [|split].
  - apply ascending_NoDup, Details_ctor_ascending.
  - apply keys_Details_ctor.
  - unfold Details_ctor. rewrite map_find_fold by constructor. reflexivity.
Qed.

(** C6 as stated fails: of two values supplied for "k", the first stays. *)
Lemma last_write_does_not_win :
  map_find "k"
    (Details_ctor (double := no_double)
       [("k", VString "1"); ("k", VString "2")])
  = Some (VString "1") /\
  last_supplied (double := no_double) "k"
    [("k", VString "1"); ("k", VString "2")]
  = Some (VString "2") /\
  map_find "k"
    (Details_ctor (double := no_double)
       [("k", VString "1"); ("k", VString "2")])
  <> last_supplied "k" [("k", VString "1"); ("k", VString "2")].
Proof.
  split; [reflexivity|]. split; [reflexivity|].
  vm_compute. discriminate.
Qed.

(** ** Quoting *)










(** ** Record formats *)

(** C7 (amended).  The records are delimited by backticks, not by double
    quotes: the constructor writes the catalog line, and the three
    transition records and the details line have the forms below, where
    every [%s] argument is written up to its first NUL byte. *)
Theorem records_are_backtick_delimited (double : Type) (put : double -> string)
    (m fn f : string) (l : Z) (d : Details double) :
  let a := fst (Assertion_ctor double m fn f l) in
  let ident := c_str m ++ " in " ++ c_str fn in
  stdout_text put (snd (Assertion_ctor double m fn f l))
  = "There is an assertion with ID `" ++ ident ++ "` at " ++ c_str f ++ ":"
      ++ decimal l ++ " in `" ++ c_str fn ++ "` with message: `" ++ c_str m
      ++ "`" ++ nl /\
  render put (Reached (id a))
  = "The assertion with ID `" ++ ident ++ "` was reached" ++ nl /\
  render put (FirstFalse (id a) (message a))
  = "The assertion with ID `" ++ ident ++ "` saw its first false: "
      ++ c_str m ++ nl /\
  render put (FirstTrue (id a) (message a))
  = "The assertion with ID `" ++ ident ++ "` saw its first true: "
      ++ c_str m ++ nl /\
  render put (DetailsOut d)
  = "Details: " ++ c_str (put_details put d) ++ nl /\
  stdout_text put (snd (call (check_assertion true d) a))
  = ("The assertion with ID `" ++ ident ++ "` was reached" ++ nl)
      ++ ("Details: " ++ c_str (put_details put d) ++ nl)
      ++ ("The assertion with ID `" ++ ident ++ "` saw its first true: "
            ++ c_str m ++ nl)
      ++ ("Details: " ++ c_str (put_details put d) ++ nl).
Proof.
  cbv zeta. unfold Assertion_ctor, stdout_text, call.
  pose proof (c_str_id_field m fn) as Hid.
  remember (c_str m ++ " in " ++ c_str fn) as ident eqn:Eid.
  cbn -[put_details c_str decimal]. rewrite !Hid.
  repeat split.
Qed.


(** C7 as stated fails: the catalog line of the site "x>0" in "main" at
    a.cpp:7 carries backticks where the documented format has double
    quotes. *)
Lemma catalog_line_not_as_documented :
  stdout_text put_no_double
    (snd (Assertion_ctor no_double "x>0" "main" "a.cpp" 7))
  = "There is an assertion with ID `x>0 in main` at a.cpp:7 in `main` with message: `x>0`"
      ++ nl /\
  stdout_text put_no_double
    (snd (Assertion_ctor no_double "x>0" "main" "a.cpp" 7))
  <> documented_catalog_line "x>0 in main" "a.cpp" 7 "main" "x>0" /\
  render put_no_double (Reached "x>0 in main")
  <> documented_reached_line "x>0 in main".
Proof.
  split; [reflexivity|]. split; vm_compute; discriminate.
Qed.

(** ** The one-shot state machine *)

Section StateMachine.

Variable double : Type.
Implicit Types (a : Assertion) (d : Details double).
Implicit Types (cs : list (bool * Details double)).

(** One call of [check_assertion], guard and body together. *)
Lemma call_check_assertion a cond d :
  call (check_assertion cond d) a
  = (with_state
       {| not_reached := false;
          false_not_seen := false_not_seen (state a) && cond;
          true_not_seen := true_not_seen (state a) && negb cond;
          rest := rest (state a) |} a,
     (if not_reached (state a)
      then [Reached (id a); DetailsOut d] else [])
     ++ (if negb cond && false_not_seen (state a)
         then [FirstFalse (id a) (message a); DetailsOut d] else [])
     ++ (if cond && true_not_seen (state a)
         then [FirstTrue (id a) (message a); DetailsOut d] else []))%list.
Proof.
  destruct a as [[nr fns tns r] m fn f l i].
  destruct nr, fns, tns, cond; reflexivity.
Qed.

Lemma count_app (p : Emit double -> bool) (o1 o2 : list (Emit double)) :
  count p (o1 ++ o2) = count p o1 + count p o2.
Proof. unfold count. now rewrite filter_app, length_app. Qed.

Lemma call_no_catalog a cond d :
  Forall (fun ev => is_catalog ev = false)
    (snd (call (check_assertion cond d) a)).
Proof.
  rewrite call_check_assertion. cbn [snd].
  destruct (not_reached (state a)), (negb cond && false_not_seen (state a)),
    (cond && true_not_seen (state a)); cbn; repeat constructor.
Qed.

Lemma checks_cons cond d cs a :
  checks ((cond, d) :: cs) a
  = (fst (checks cs (fst (call (check_assertion cond d) a))),
     snd (call (check_assertion cond d) a)
     ++ snd (checks cs (fst (call (check_assertion cond d) a))))%list.
Proof.
  cbn [checks]. destruct (call (check_assertion cond d) a) as [a1 o1].
  cbn [fst snd]. now destruct (checks cs a1).
Qed.

Lemma ble_trans (x y z : bool) : Bool.le x y -> Bool.le y z -> Bool.le x z.
Proof. destruct x, y, z; cbn; auto. Qed.

Lemma checks_flags cs a :
  Bool.le (not_reached (state (fst (checks cs a)))) (not_reached (state a)) /\
  Bool.le (false_not_seen (state (fst (checks cs a))))
    (false_not_seen (state a)) /\
  Bool.le (true_not_seen (state (fst (checks cs a))))
    (true_not_seen (state a)).
Proof.
  revert a. induction cs as [|[cond d] cs IH]; intro a.
  - cbn [checks fst].
    repeat split;
      match goal with |- Bool.le ?b ?b => destruct b; cbn; auto end.
  - rewrite checks_cons. cbn [fst].
    destruct (IH (fst (call (check_assertion cond d) a))) as (H1 & H2 & H3).
    repeat split;
      (eapply ble_trans; [eassumption|]);
      rewrite call_check_assertion; cbn;
      destruct (not_reached (state a)), (false_not_seen (state a)),
        (true_not_seen (state a)), cond; cbn; auto.
Qed.

Lemma checks_counts cs a :
  count is_reached (snd (checks cs a)) <= Nat.b2n (not_reached (state a)) /\
  count is_first_false (snd (checks cs a))
  <= Nat.b2n (false_not_seen (state a)) /\
  count is_first_true (snd (checks cs a))
  <= Nat.b2n (true_not_seen (state a)).
Proof.
  revert a. induction cs as [|[cond d] cs IH]; intro a.
  - cbn. repeat split; apply Nat.le_0_l.
  - rewrite checks_cons. cbn [snd]. rewrite !count_app.
    destruct (IH (fst (call (check_assertion cond d) a))) as (H1 & H2 & H3).
    rewrite call_check_assertion in *. cbn [fst snd] in *.
    cbn [with_state state not_reached false_not_seen true_not_seen] in *.
    rewrite !count_app.
    destruct (not_reached (state a)), (false_not_seen (state a)),
      (true_not_seen (state a)), cond; cbn in *; lia.
Qed.

Lemma silent_call a cond d :
  not_reached (state a) = false ->
  false_not_seen (state a) = false ->
  true_not_seen (state a) = false ->
  call (check_assertion cond d) a = (a, []).
Proof.
  destruct a as [[nr fns tns r] m fn f l i]. cbn.
  intros -> -> ->. reflexivity.
Qed.

End StateMachine.

(** C1.  One call applies the three checks one after the other, each on
    its own flag: reached, first false, first true.  The first call on a
    fresh object with a true condition writes the reached and the
    first-true records, and the calls check(true), check(false),
    check(false) on the site "x>0" write reached and first-true, then
    first-false alone, then nothing. *)
Theorem checks_applied_independently (double : Type) (a : Assertion)
    (cond : bool) (d : Details double) (m fn f : string) (l : Z)
    (five minus_one : double) :
  call (check_assertion cond d) a
  = (with_state
       {| not_reached := false;
          false_not_seen := false_not_seen (state a) && cond;
          true_not_seen := true_not_seen (state a) && negb cond;
          rest := rest (state a) |} a,
     (if not_reached (state a)
      then [Reached (id a); DetailsOut d] else [])
     ++ (if negb cond && false_not_seen (state a)
         then [FirstFalse (id a) (message a); DetailsOut d] else [])
     ++ (if cond && true_not_seen (state a)
         then [FirstTrue (id a) (message a); DetailsOut d] else []))%list /\
  snd (call (check_assertion true d) (fst (Assertion_ctor double m fn f l)))
  = [Reached (c_str m ++ " in " ++ c_str fn); DetailsOut d;
     FirstTrue (c_str m ++ " in " ++ c_str fn) m; DetailsOut d] /\
  (let a0 := fst (Assertion_ctor double "x>0" fn f l) in
   let r1 := call (check_assertion true (Details_ctor [("x", VDouble five)])) a0 in
   let r2 := call (check_assertion false (Details_ctor [("x", VDouble minus_one)]))
               (fst r1) in
   let r3 := call (check_assertion false (Details_ctor (double := double) []))
               (fst r2) in
   snd r1 = [Reached ("x>0 in " ++ c_str fn); DetailsOut [("x", VDouble five)];
             FirstTrue ("x>0 in " ++ c_str fn) "x>0";
             DetailsOut [("x", VDouble five)]] /\
   snd r2 = [FirstFalse ("x>0 in " ++ c_str fn) "x>0";
             DetailsOut [("x", VDouble minus_one)]] /\
   snd r3 = []).
Proof.
  split; [apply call_check_assertion|].
  split; [reflexivity|]. cbv zeta. repeat split.
Qed.

(** C2.  A fresh object has its three flags set; over any sequence of
    calls a flag that is set afterwards was set before (no flag ever goes
    from false to true); and the calls write at most one record of each
    category, none at all when that category's flag is already false. *)
Theorem flags_are_one_shot (double : Type) (m fn f : string) (l : Z)
    (a : Assertion) (cs : list (bool * Details double)) :
  AssertionState_ctor
  = {| not_reached := true; false_not_seen := true; true_not_seen := true;
       rest := 0 |} /\
  state (fst (Assertion_ctor double m fn f l)) = AssertionState_ctor /\
  Bool.le (not_reached (state (fst (checks cs a)))) (not_reached (state a)) /\
  Bool.le (false_not_seen (state (fst (checks cs a))))
    (false_not_seen (state a)) /\
  Bool.le (true_not_seen (state (fst (checks cs a))))
    (true_not_seen (state a)) /\
  count is_reached (snd (checks cs a)) <= Nat.b2n (not_reached (state a)) /\
  count is_first_false (snd (checks cs a))
  <= Nat.b2n (false_not_seen (state a)) /\
  count is_first_true (snd (checks cs a))
  <= Nat.b2n (true_not_seen (state a)).
Proof.
  split; [reflexivity|]. split; [reflexivity|].
  destruct (checks_flags double cs a) as (F1 & F2 & F3).
  destruct (checks_counts double cs a) as (N1 & N2 & N3).
  repeat split; assumption.
Qed.

(** C4.  Once the three flags of an object are false, a call of
    [check_assertion], whatever its condition and details, writes nothing
    and leaves every field of the object as it was; so does any sequence
    of such calls. *)
Theorem covered_site_is_silent (double : Type) (a : Assertion) (cond : bool)
    (d : Details double) (cs : list (bool * Details double)) :
  not_reached (state a) = false ->
  false_not_seen (state a) = false ->
  true_not_seen (state a) = false ->
  call (check_assertion cond d) a = (a, []) /\ checks cs a = (a, []).
Proof.
  intros H1 H2 H3. split; [now apply silent_call|].
  induction cs as [|[c d'] cs IH]; [reflexivity|].
  cbn [checks]. rewrite silent_call by assumption. now rewrite IH.
Qed.

Lemma covered_site_is_silent_witness :
  call (check_assertion (double := no_double) true
          (Details_ctor [("x", VString "5")]))
    (mkAssertion (mkState false false false 0) "x>0" "main" "a.cpp" 7
       "x>0 in main")
  = (mkAssertion (mkState false false false 0) "x>0" "main" "a.cpp" 7
       "x>0 in main", []) /\
  checks (double := no_double) [(false, Details_ctor []); (true, Details_ctor [])]
    (mkAssertion (mkState false false false 0) "x>0" "main" "a.cpp" 7
       "x>0 in main")
  = (mkAssertion (mkState false false false 0) "x>0" "main" "a.cpp" 7
       "x>0 in main", []).
Proof.
  apply (covered_site_is_silent no_double
           (mkAssertion (mkState false false false 0) "x>0" "main" "a.cpp" 7
              "x>0 in main"));
    reflexivity.
Defined.

(** ** Catalog records of a process *)

Section ProcessTheory.

Variable double : Type.
Implicit Types (s : Site) (p : Process double).
Implicit Types (pre post events : list (Event double)).

Lemma create_out (e : CatalogEntry) :
  snd (create double e) = [catalog_of double e].
Proof. reflexivity. Qed.

Lemma same_site_refl s : same_site s s = true.
Proof. unfold same_site. now destruct (Site_eq_dec s s). Qed.

Lemma same_site_neq s s' : s <> s' -> same_site s s' = false.
Proof. unfold same_site. now destruct (Site_eq_dec s s'). Qed.

Lemma same_site_false s s' : same_site s s' = false -> s <> s'.
Proof. unfold same_site. now destruct (Site_eq_dec s s'). Qed.

Lemma same_site_true s s' : same_site s s' = true -> s = s'.
Proof. unfold same_site. now destruct (Site_eq_dec s s'). Qed.

Lemma store_same s (a : Assertion) (st : Site -> Assertion) :
  store s a st s = a.
Proof. unfold store. now rewrite same_site_refl. Qed.

Lemma store_other s s' (a : Assertion) (st : Site -> Assertion) :
  s' <> s -> store s a st s' = st s'.
Proof. intro N. unfold store. now rewrite same_site_neq. Qed.

Lemma initialise_written s p :
  written (initialise s p)
  = (written p ++ [(s, catalog_of double (entry_of s))])%list.
Proof. reflexivity. Qed.

Lemma initialise_statics s p :
  statics (initialise s p) = store s (fst (create double (entry_of s))) (statics p).
Proof. reflexivity. Qed.

Lemma macro_written s (cond : bool) (args : list (string * ValueType double)) p :
  written (ANTITHESIS_ASSERT_RAW s cond args p)
  = (written p
       ++ tagged s
            (snd (call (check_assertion cond (Details_ctor args)) (statics p s))))%list.
Proof.
  unfold ANTITHESIS_ASSERT_RAW.
  now destruct (call (check_assertion cond (Details_ctor args)) (statics p s)).
Qed.

Lemma macro_statics s (cond : bool) (args : list (string * ValueType double)) p :
  statics (ANTITHESIS_ASSERT_RAW s cond args p)
  = store s
      (fst (call (check_assertion cond (Details_ctor args)) (statics p s)))
      (statics p).
Proof.
  unfold ANTITHESIS_ASSERT_RAW.
  now destruct (call (check_assertion cond (Details_ctor args)) (statics p s)).
Qed.

Lemma tagged_other s s' (out : list (Emit double)) :
  s' <> s -> Forall (fun r => fst r <> s) (tagged s' out).
Proof.
  intro N. unfold tagged. apply Forall_map, Forall_forall. now intros x _.
Qed.

(** Before its initialisation an object stays zero-initialised and writes
    nothing, whatever calls are made at its site. *)
Lemma before_init s pre p :
  existsb (is_init s) pre = false ->
  statics p s = zero_initialised ->
  statics (fold_left step pre p) s = zero_initialised /\
  exists t,
    written (fold_left step pre p) = (written p ++ t)%list /\
    Forall (fun r => fst r <> s) t.
Proof.
  revert p. induction pre as [|ev pre IH]; intros p H Z.
  - split; [exact Z|]. exists []. split; [now rewrite app_nil_r | constructor].
  - cbn [existsb] in H. apply orb_false_elim in H as [Hev H].
    cbn [fold_left].
    destruct ev as [s'|s' cond args]; cbn [step is_init] in *.
    + apply same_site_false in Hev.
      destruct (IH (initialise s' p) H) as (Z' & t & E & F).
      { rewrite initialise_statics, store_other; [exact Z | congruence]. }
      split; [exact Z'|].
      exists ((s', catalog_of double (entry_of s')) :: t). split.
      * rewrite E, initialise_written, <- app_assoc. reflexivity.
      * constructor; [exact Hev | exact F].
    + destruct (Site_eq_dec s' s) as [->|N].
      * destruct (IH (ANTITHESIS_ASSERT_RAW s cond args p) H) as (Z' & t & E & F).
        { rewrite macro_statics, store_same, Z. reflexivity. }
        split; [exact Z'|]. exists t. split; [|exact F].
        rewrite E, macro_written, Z. cbn [call snd tagged map].
        now rewrite app_nil_r.
      * destruct (IH (ANTITHESIS_ASSERT_RAW s' cond args p) H) as (Z' & t & E & F).
        { rewrite macro_statics, store_other; [exact Z | congruence]. }
        split; [exact Z'|].
        eexists. split.
        -- rewrite E, macro_written, <- app_assoc. reflexivity.
        -- apply Forall_app. split; [now apply tagged_other | exact F].
Qed.

(** After its initialisation an object writes no catalog record. *)
Lemma after_init s post p :
  existsb (is_init s) post = false ->
  exists t,
    written (fold_left step post p) = (written p ++ t)%list /\
    Forall (fun r => fst r = s -> is_catalog (snd r) = false) t.
Proof.
  revert p. induction post as [|ev post IH]; intros p H.
  - exists []. split; [now rewrite app_nil_r | constructor].
  - cbn [existsb] in H. apply orb_false_elim in H as [Hev H].
    cbn [fold_left].
    destruct ev as [s'|s' cond args]; cbn [step is_init] in *.
    + apply same_site_false in Hev.
      destruct (IH (initialise s' p) H) as (t & E & F).
      exists ((s', catalog_of double (entry_of s')) :: t). split.
      * rewrite E, initialise_written, <- app_assoc. reflexivity.
      * constructor; [cbn; congruence | exact F].
    + destruct (IH (ANTITHESIS_ASSERT_RAW s' cond args p) H) as (t & E & F).
      eexists. split.
      * rewrite E, macro_written, <- app_assoc. reflexivity.
      * apply Forall_app. split; [|exact F].
        unfold tagged. apply Forall_map.
        eapply Forall_impl; [|apply call_no_catalog]. cbn. auto.
Qed.

End ProcessTheory.

(** C3 (amended).  For every static object, that is for every identity and
    every translation unit that instantiates it, whose initialisation runs
    once: the constructor writes exactly the catalog record of the
    identity, and in all that the process writes, whatever the order of
    initialisations and calls, this record of the object occurs once:
    nothing written before it comes from the object (a call made before
    the construction writes nothing), and no record written after it by
    the object is a catalog record. *)
Theorem catalog_record_once_and_first (double : Type)
    (pre post : list (Event double)) (s : Site) :
  existsb (is_init s) pre = false ->
  existsb (is_init s) post = false ->
  snd (create double (entry_of s)) = [catalog_of double (entry_of s)] /\
  exists before after,
    written (execute (pre ++ Init s :: post))
    = (before ++ (s, catalog_of double (entry_of s)) :: after)%list /\
    Forall (fun r => fst r <> s) before /\
    Forall (fun r => fst r = s -> is_catalog (snd r) = false) after.
Proof.
  intros Hpre Hpost. split; [reflexivity|].
  unfold execute. rewrite fold_left_app. cbn [fold_left step].
  destruct (before_init double s pre start Hpre eq_refl) as (_ & t1 & E1 & F1).
  destruct (after_init double s post (initialise s (fold_left step pre start)) Hpost)
    as (t2 & E2 & F2).
  exists t1, t2. split; [|split; assumption].
  rewrite E2, initialise_written, E1. cbn [written start app].
  now rewrite <- app_assoc.
Qed.

Lemma catalog_record_once_and_first_witness :
  existsb (is_init (mkSite 0 (mkEntry "x>0" "a.cpp" "main" 7)))
    [Macro (double := no_double) (mkSite 0 (mkEntry "x>0" "a.cpp" "main" 7))
       true [("x", VString "5")];
     Init (mkSite 0 (mkEntry "y>0" "a.cpp" "main" 9))] = false /\
  existsb (is_init (mkSite 0 (mkEntry "x>0" "a.cpp" "main" 7)))
    [Macro (double := no_double) (mkSite 0 (mkEntry "x>0" "a.cpp" "main" 7))
       false []] = false /\
  exists before after,
    written
      (execute
         ([Macro (double := no_double) (mkSite 0 (mkEntry "x>0" "a.cpp" "main" 7))
             true [("x", VString "5")];
           Init (mkSite 0 (mkEntry "y>0" "a.cpp" "main" 9))]
          ++ Init (mkSite 0 (mkEntry "x>0" "a.cpp" "main" 7))
          :: [Macro (mkSite 0 (mkEntry "x>0" "a.cpp" "main" 7)) false []]))
    = (before
         ++ (mkSite 0 (mkEntry "x>0" "a.cpp" "main" 7),
             catalog_of no_double (mkEntry "x>0" "a.cpp" "main" 7))
         :: after)%list /\
    Forall (fun r => fst r <> mkSite 0 (mkEntry "x>0" "a.cpp" "main" 7)) before /\
    Forall (fun r => fst r = mkSite 0 (mkEntry "x>0" "a.cpp" "main" 7) ->
                     is_catalog (snd r) = false) after.
Proof.
  split; [reflexivity|]. split; [reflexivity|].
  exact (proj2 (catalog_record_once_and_first no_double
                  [Macro (mkSite 0 (mkEntry "x>0" "a.cpp" "main" 7))
                     true [("x", VString "5")];
                   Init (mkSite 0 (mkEntry "y>0" "a.cpp" "main" 9))]
                  [Macro (mkSite 0 (mkEntry "x>0" "a.cpp" "main" 7)) false []]
                  (mkSite 0 (mkEntry "x>0" "a.cpp" "main" 7))
                  eq_refl eq_refl)).
Defined.

(** C3 as stated fails: a call site in a header that two translation units
    include has one identity and two static objects.  Each object is
    initialised once, and the process writes two catalog records for the
    identity, the second one after a transition record of that identity. *)
Lemma one_identity_two_catalog_records :
  length
    (filter (is_init (mkSite 0 (mkEntry "x>0" "h.hpp" "f" 3)))
       [Init (double := no_double) (mkSite 0 (mkEntry "x>0" "h.hpp" "f" 3));
        Macro (mkSite 0 (mkEntry "x>0" "h.hpp" "f" 3)) true [];
        Init (mkSite 1 (mkEntry "x>0" "h.hpp" "f" 3))]) = 1 /\
  length
    (filter (is_init (mkSite 1 (mkEntry "x>0" "h.hpp" "f" 3)))
       [Init (double := no_double) (mkSite 0 (mkEntry "x>0" "h.hpp" "f" 3));
        Macro (mkSite 0 (mkEntry "x>0" "h.hpp" "f" 3)) true [];
        Init (mkSite 1 (mkEntry "x>0" "h.hpp" "f" 3))]) = 1 /\
  map snd
    (written
       (execute
          [Init (double := no_double) (mkSite 0 (mkEntry "x>0" "h.hpp" "f" 3));
           Macro (mkSite 0 (mkEntry "x>0" "h.hpp" "f" 3)) true [];
           Init (mkSite 1 (mkEntry "x>0" "h.hpp" "f" 3))]))
  = [Catalog "x>0 in f" "h.hpp" 3 "f" "x>0";
     Reached "x>0 in f"; DetailsOut [];
     FirstTrue "x>0 in f" "x>0"; DetailsOut [];
     Catalog "x>0 in f" "h.hpp" 3 "f" "x>0"] /\
  length
    (catalog_records_of_identity (mkEntry "x>0" "h.hpp" "f" 3)
       (written
          (execute
             [Init (double := no_double) (mkSite 0 (mkEntry "x>0" "h.hpp" "f" 3));
              Macro (mkSite 0 (mkEntry "x>0" "h.hpp" "f" 3)) true [];
              Init (mkSite 1 (mkEntry "x>0" "h.hpp" "f" 3))]))) = 2.
Proof. repeat split. Qed.

(** * Further properties of the header *)

(** ** The state machine, call by call *)

Section CallTheory.

Variable double : Type.
Implicit Types (a : Assertion) (d : Details double).
Implicit Types (cs : list (bool * Details double)).

Lemma checks_nil a : checks (double := double) [] a = (a, []).
Proof. reflexivity. Qed.

Lemma call_fields a cond d :
  message (fst (call (check_assertion cond d) a)) = message a /\
  function_name (fst (call (check_assertion cond d) a)) = function_name a /\
  file_name (fst (call (check_assertion cond d) a)) = file_name a /\
  line (fst (call (check_assertion cond d) a)) = line a /\
  id (fst (call (check_assertion cond d) a)) = id a /\
  rest (state (fst (call (check_assertion cond d) a))) = rest (state a).
Proof. rewrite call_check_assertion. repeat split. Qed.

Lemma call_flags a cond d :
  not_reached (state (fst (call (check_assertion cond d) a))) = false /\
  false_not_seen (state (fst (call (check_assertion cond d) a)))
  = false_not_seen (state a) && cond /\
  true_not_seen (state (fst (call (check_assertion cond d) a)))
  = true_not_seen (state a) && negb cond.
Proof. rewrite call_check_assertion. repeat split. Qed.

Lemma call_out a cond d :
  snd (call (check_assertion cond d) a)
  = ((if not_reached (state a)
      then [Reached (id a); DetailsOut d] else [])
     ++ (if negb cond && false_not_seen (state a)
         then [FirstFalse (id a) (message a); DetailsOut d] else [])
     ++ (if cond && true_not_seen (state a)
         then [FirstTrue (id a) (message a); DetailsOut d] else []))%list.
Proof. now rewrite call_check_assertion. Qed.

End CallTheory.

(** X1.  The guard of [check_assertion] is only a fast path: with or
    without it, a call changes the object and writes records exactly as
    [check_assertion_internal] does. *)
Theorem guard_is_transparent (double : Type) (a : Assertion) (cond : bool)
    (d : Details double) :
  call (check_assertion cond d) a = call (check_assertion_internal cond d) a.
Proof.
  destruct a as [[nr fns tns r] m fn f l i].
  destruct nr, fns, tns, cond; reflexivity.
Qed.

(** X2.  Whatever calls are made on an object, its message, function name,
    file name, line, ID and spare bits stay as the constructor set them;
    only the three flags change. *)
Theorem calls_change_flags_only (double : Type) (a : Assertion)
    (cs : list (bool * Details double)) :
  message (fst (checks cs a)) = message a /\
  function_name (fst (checks cs a)) = function_name a /\
  file_name (fst (checks cs a)) = file_name a /\
  line (fst (checks cs a)) = line a /\
  id (fst (checks cs a)) = id a /\
  rest (state (fst (checks cs a))) = rest (state a).
Proof.
  revert a. induction cs as [|[cond d] cs IH]; intro a.
  - repeat split.
  - rewrite checks_cons. cbn [fst].
    destruct (IH (fst (call (check_assertion cond d) a)))
      as (H1 & H2 & H3 & H4 & H5 & H6).
    destruct (call_fields double a cond d) as (K1 & K2 & K3 & K4 & K5 & K6).
    repeat split; congruence.
Qed.

(** X3.  Over any sequence of calls the reports are exact, not only
    bounded: a reached record is written once if the flag was set and
    there is a call at all; a first-false record once if its flag was set
    and some call has a false condition; a first-true record once if its
    flag was set and some call has a true condition. *)
Theorem reports_are_exact (double : Type) (a : Assertion)
    (cs : list (bool * Details double)) :
  count is_reached (snd (checks cs a))
  = Nat.b2n (not_reached (state a) && negb (Nat.eqb (length cs) 0)) /\
  count is_first_false (snd (checks cs a))
  = Nat.b2n (false_not_seen (state a) && existsb (fun c => negb (fst c)) cs) /\
  count is_first_true (snd (checks cs a))
  = Nat.b2n (true_not_seen (state a) && existsb (fun c => fst c) cs).
Proof.
  revert a. induction cs as [|[cond d] cs IH]; intro a.
  - cbn. rewrite !andb_false_r. repeat split.
  - rewrite checks_cons. cbn [snd]. rewrite !count_app.
    destruct (IH (fst (call (check_assertion cond d) a))) as (H1 & H2 & H3).
    destruct (call_flags double a cond d) as (F1 & F2 & F3).
    rewrite H1, H2, H3, F1, F2, F3, call_out, !count_app.
    cbn [length Nat.eqb negb existsb fst andb].
    destruct (not_reached (state a)), (false_not_seen (state a)),
      (true_not_seen (state a)), cond; cbn;
      repeat split;
      try (destruct (existsb (fun c => negb (fst c)) cs); reflexivity);
      try (destruct (existsb (fun c => fst c) cs); reflexivity).
Qed.

(** X4.  The flags after any sequence of calls: not-reached stays set only
    if no call was made, false-not-seen only if it was set and every call
    had a true condition, true-not-seen only if it was set and every call
    had a false condition.  So one true and one false call, in any order
    and among any others, leave the object with all three flags false. *)
Theorem flags_after_calls (double : Type) (a : Assertion)
    (cs : list (bool * Details double)) :
  not_reached (state (fst (checks cs a)))
  = not_reached (state a) && Nat.eqb (length cs) 0 /\
  false_not_seen (state (fst (checks cs a)))
  = false_not_seen (state a) && forallb (fun c => fst c) cs /\
  true_not_seen (state (fst (checks cs a)))
  = true_not_seen (state a) && forallb (fun c => negb (fst c)) cs.
Proof.
  revert a. induction cs as [|[cond d] cs IH]; intro a.
  - cbn. rewrite !andb_true_r. repeat split.
  - rewrite checks_cons. cbn [fst].
    destruct (IH (fst (call (check_assertion cond d) a))) as (H1 & H2 & H3).
    destruct (call_flags double a cond d) as (F1 & F2 & F3).
    rewrite H1, H2, H3, F1, F2, F3.
    cbn [length Nat.eqb forallb fst andb].
    rewrite andb_false_r, !andb_assoc. repeat split.
Qed.

(** X5.  One call never writes a first-false and a first-true record
    together, so it writes at most two transition records (never three)
    and at most four records in all. *)
Theorem call_writes_at_most_two_transitions (double : Type) (a : Assertion)
    (cond : bool) (d : Details double) :
  count is_first_false (snd (call (check_assertion cond d) a))
  + count is_first_true (snd (call (check_assertion cond d) a)) <= 1 /\
  count is_transition (snd (call (check_assertion cond d) a)) <= 2 /\
  length (snd (call (check_assertion cond d) a)) <= 4.
Proof.
  rewrite call_out.
  destruct (not_reached (state a)), (false_not_seen (state a)),
    (true_not_seen (state a)), cond; cbn; lia.
Qed.

(** X6.  On an object whose not-reached flag is set, the first call writes
    the reached record and its details line before anything else, and no
    reached record follows. *)
Theorem reached_comes_first (double : Type) (a : Assertion) (cond : bool)
    (d : Details double) (cs : list (bool * Details double)) :
  not_reached (state a) = true ->
  exists out,
    snd (checks ((cond, d) :: cs) a) = Reached (id a) :: DetailsOut d :: out /\
    count is_reached out = 0.
Proof.
  intro H. rewrite checks_cons. cbn [snd]. rewrite call_out, H.
  cbn [app]. eexists. split; [reflexivity|].
  rewrite !count_app.
  destruct (checks_counts double cs (fst (call (check_assertion cond d) a)))
    as (N1 & _).
  destruct (call_flags double a cond d) as (F1 & _).
  rewrite F1 in N1. cbn in N1.
  destruct (negb cond && false_not_seen (state a)),
    (cond && true_not_seen (state a)); cbn; lia.
Qed.

Lemma reached_comes_first_witness :
  not_reached
    (state (mkAssertion (mkState true false true 0) "m" "f" "a.cpp" 3 "m in f"))
  = true /\
  exists out,
    snd (checks (double := no_double) [(false, Details_ctor []); (true, Details_ctor [])]
           (mkAssertion (mkState true false true 0) "m" "f" "a.cpp" 3 "m in f"))
    = Reached "m in f" :: DetailsOut (Details_ctor []) :: out /\
    count is_reached out = 0.
Proof.
  split; [reflexivity|].
  exact (reached_comes_first no_double
           (mkAssertion (mkState true false true 0) "m" "f" "a.cpp" 3 "m in f")
           false (Details_ctor []) [(true, Details_ctor [])] eq_refl).
Defined.

(** X7.  A call that repeats the condition of the call before it writes
    nothing and leaves the object as that call left it, whatever the two
    details are. *)
Theorem repeated_condition_is_silent (double : Type) (a : Assertion)
    (cond : bool) (d d' : Details double) :
  call (check_assertion cond d') (fst (call (check_assertion cond d) a))
  = (fst (call (check_assertion cond d) a), []).
Proof.
  destruct a as [[nr fns tns r] m fn f l i].
  destruct nr, fns, tns, cond; reflexivity.
Qed.

(** Running a sequence of calls followed by a second sequence is running
    the second on the object the first one leaves. *)
Lemma checks_compose (double : Type) (a : Assertion)
    (cs1 cs2 : list (bool * Details double)) :
  checks (cs1 ++ cs2) a
  = (fst (checks cs2 (fst (checks cs1 a))),
     snd (checks cs1 a) ++ snd (checks cs2 (fst (checks cs1 a))))%list.
Proof.
  revert a. induction cs1 as [|[cond d] cs1 IH]; intro a.
  - cbn [app checks fst snd]. now destruct (checks cs2 a).
  - cbn [app]. rewrite !checks_cons, IH. cbn [fst snd].
    now rewrite app_assoc.
Qed.

Section RecordTheory.

Variable double : Type.
Implicit Types (a : Assertion) (d : Details double).
Implicit Types (cs : list (bool * Details double)).

Lemma written_by_later a a' d (ds : list (Details double)) (e : Emit double) :
  id a' = id a -> message a' = message a ->
  written_by a' ds e -> written_by a (d :: ds) e.
Proof.
  intros Hi Hm. destruct e; cbn; rewrite ?Hi, ?Hm; auto.
Qed.

Lemma call_written_by a cond d (ds : list (Details double)) :
  Forall (written_by a (d :: ds)) (snd (call (check_assertion cond d) a)).
Proof.
  rewrite call_out.
  destruct (not_reached (state a)), (negb cond && false_not_seen (state a)),
    (cond && true_not_seen (state a)); cbn; repeat constructor.
Qed.

Lemma call_paired a cond d (out : list (Emit double)) :
  paired (snd (call (check_assertion cond d) a) ++ out) = paired out.
Proof.
  rewrite call_out.
  destruct (not_reached (state a)), (negb cond && false_not_seen (state a)),
    (cond && true_not_seen (state a)); reflexivity.
Qed.

End RecordTheory.

Lemma checks_paired (double : Type) (a : Assertion)
    (cs : list (bool * Details double)) :
  paired (snd (checks cs a)) = true.
Proof.
  revert a. induction cs as [|[cond d] cs IH]; intro a; [reflexivity|].
  rewrite checks_cons. cbn [snd]. now rewrite call_paired.
Qed.

(** X8.  Every record that calls on an object write belongs to that object:
    transition records carry its ID (and its message), details records
    carry the details of one of the calls, no catalog record is written,
    and the records come in pairs, each transition record directly followed
    by a details record. *)
Theorem records_belong_to_the_object (double : Type) (a : Assertion)
    (cs : list (bool * Details double)) :
  Forall (written_by a (map snd cs)) (snd (checks cs a)) /\
  paired (snd (checks cs a)) = true.
Proof.
  split; [|apply checks_paired].
  revert a. induction cs as [|[cond d] cs IH]; intro a; [constructor|].
  rewrite checks_cons. cbn [snd map].
  destruct (call_fields double a cond d) as (Km & _ & _ & _ & Ki & _).
  apply Forall_app. split; [apply call_written_by|].
  eapply Forall_impl; [|apply IH].
  intros e He. eapply written_by_later; eassumption.
Qed.

Lemma paired_length (double : Type) (n : nat) (out : list (Emit double)) :
  length out <= n -> paired out = true ->
  length out = 2 * count is_transition out.
Proof.
  revert out. induction n as [|n IH]; intros out L P.
  - destruct out; [reflexivity | cbn in L; lia].
  - destruct out as [|t [|x out]]; [reflexivity | discriminate |].
    destruct x; try (destruct t; discriminate).
    cbn [paired] in P. apply andb_prop in P as [T P].
    cbn [length] in *. unfold count in *. cbn [filter]. rewrite T.
    cbn [is_transition is_reached is_first_false is_first_true orb length].
    rewrite (IH out); [lia | lia | exact P].
Qed.

Lemma count_transition (double : Type) (out : list (Emit double)) :
  count is_transition out
  = count is_reached out + count is_first_false out + count is_first_true out.
Proof.
  unfold count. induction out as [|e out IH]; [reflexivity|].
  destruct e; cbn in *; lia.
Qed.

(** X9.  Over its whole life an object writes at most three transition
    records, whatever calls are made and whatever state it starts from, and
    so at most six records after its catalog record. *)
Theorem object_writes_at_most_three_transitions (double : Type)
    (a : Assertion) (cs : list (bool * Details double)) :
  count is_transition (snd (checks cs a)) <= 3 /\
  length (snd (checks cs a)) = 2 * count is_transition (snd (checks cs a)) /\
  length (snd (checks cs a)) <= 6.
Proof.
  destruct (checks_counts double cs a) as (N1 & N2 & N3).
  pose proof (checks_paired double a cs) as P.
  pose proof (paired_length double _ _ (Nat.le_refl _) P) as L.
  pose proof (count_transition double (snd (checks cs a))) as T.
  destruct (not_reached (state a)), (false_not_seen (state a)),
    (true_not_seen (state a)); cbn in N1, N2, N3; lia.
Qed.

(** ** Sites of one process *)

Section SiteTheory.

Variable double : Type.
Implicit Types (s : Site) (p : Process double).
Implicit Types (pre post events : list (Event double)).
Implicit Types (w : list (Site * Emit double)).

Lemma records_of_app s w1 w2 :
  records_of s (w1 ++ w2) = (records_of s w1 ++ records_of s w2)%list.
Proof. unfold records_of. now rewrite filter_app, map_app. Qed.

Lemma records_of_tagged s s' (out : list (Emit double)) :
  records_of s (tagged s' out) = if same_site s' s then out else [].
Proof.
  unfold records_of, tagged.
  induction out as [|x out IH]; cbn [map filter fst].
  - now destruct (same_site s' s).
  - destruct (same_site s' s) eqn:E; cbn [map snd]; [now rewrite IH | exact IH].
Qed.

Lemma records_of_others s w :
  Forall (fun r => fst r <> s) w -> records_of s w = [].
Proof.
  unfold records_of. induction 1 as [|r w N F IH]; [reflexivity|].
  cbn [filter]. now rewrite (same_site_neq (fst r) s N).
Qed.

(** The events after the initialisation of an object, seen from that
    object. *)
Lemma calls_at_site s post p :
  existsb (is_init s) post = false ->
  statics (fold_left step post p) s
  = fst (checks (calls_at s post) (statics p s)) /\
  records_of s (written (fold_left step post p))
  = (records_of s (written p)
       ++ snd (checks (calls_at s post) (statics p s)))%list.
Proof.
  revert p. induction post as [|ev post IH]; intros p H.
  - cbn. now rewrite app_nil_r.
  - cbn [existsb] in H. apply orb_false_elim in H as [Hev H].
    cbn [fold_left].
    destruct ev as [s'|s' cond args]; cbn [step is_init calls_at] in *.
    + apply same_site_false in Hev.
      destruct (IH (initialise s' p) H) as (I1 & I2).
      rewrite initialise_statics, store_other in I1, I2 by congruence.
      split; [exact I1|].
      rewrite I2, initialise_written, records_of_app.
      change [(s', catalog_of double (entry_of s'))]
        with (tagged s' [catalog_of double (entry_of s')]).
      rewrite records_of_tagged, (same_site_neq s' s Hev).
      now rewrite app_nil_r.
    + destruct (IH (ANTITHESIS_ASSERT_RAW s' cond args p) H) as (I1 & I2).
      rewrite macro_statics in I1, I2.
      rewrite I2, macro_written, records_of_app, records_of_tagged.
      destruct (same_site s' s) eqn:E.
      * apply same_site_true in E. subst s'.
        rewrite store_same in I1 |- *.
        rewrite checks_cons. cbn [fst snd].
        split; [exact I1 | now rewrite <- app_assoc].
      * apply same_site_false in E.
        rewrite store_other in I1 |- * by congruence.
        split; [exact I1 | now rewrite app_nil_r].
Qed.

End SiteTheory.

(** X10.  Calls made before the construction of an object are lost: as
    long as the initialisation of the object has not run, calls at its
    site write nothing and leave the object zero-initialised, and the
    object the initialisation then constructs has its three flags set
    whatever calls came before. *)
Theorem early_calls_are_lost (double : Type) (pre : list (Event double))
    (s : Site) :
  existsb (is_init s) pre = false ->
  records_of s (written (execute pre)) = [] /\
  statics (execute pre) s = zero_initialised /\
  statics (execute (pre ++ [Init s])) s = fst (create double (entry_of s)) /\
  state (statics (execute (pre ++ [Init s])) s) = AssertionState_ctor.
Proof.
  intro H. unfold execute.
  destruct (before_init double s pre start H eq_refl) as (Z & t & E & F).
  split; [|split; [exact Z|]].
  - rewrite E. cbn [written start app]. now apply records_of_others.
  - rewrite fold_left_app. cbn [fold_left step].
    rewrite initialise_statics, store_same. split; reflexivity.
Qed.

Lemma early_calls_are_lost_witness :
  existsb (is_init (mkSite 0 (mkEntry "x>0" "a.cpp" "main" 7)))
    [Macro (double := no_double) (mkSite 0 (mkEntry "x>0" "a.cpp" "main" 7))
       true [];
     Init (mkSite 0 (mkEntry "y>0" "a.cpp" "main" 9))] = false /\
  records_of (mkSite 0 (mkEntry "x>0" "a.cpp" "main" 7))
    (written
       (execute
          [Macro (double := no_double) (mkSite 0 (mkEntry "x>0" "a.cpp" "main" 7))
             true [];
           Init (mkSite 0 (mkEntry "y>0" "a.cpp" "main" 9))])) = [].
Proof.
  split; [reflexivity|].
  exact (proj1 (early_calls_are_lost no_double
                  [Macro (mkSite 0 (mkEntry "x>0" "a.cpp" "main" 7)) true [];
                   Init (mkSite 0 (mkEntry "y>0" "a.cpp" "main" 9))]
                  (mkSite 0 (mkEntry "x>0" "a.cpp" "main" 7)) eq_refl)).
Defined.

(** X11.  Sites are independent.  For an object whose initialisation runs
    once, whatever the order of the initialisations and calls of the
    process: the records the object writes are its catalog record followed
    by exactly the records of the calls made at its site after the
    initialisation, in order, and its final state is the result of those
    calls alone.  Calls at other sites, also at a site with the same
    identity in another translation unit, and calls made before the
    initialisation change neither. *)
Theorem sites_are_independent (double : Type)
    (pre post : list (Event double)) (s : Site) :
  existsb (is_init s) pre = false ->
  existsb (is_init s) post = false ->
  records_of s (written (execute (pre ++ Init s :: post)))
  = catalog_of double (entry_of s)
      :: snd (checks (calls_at s post) (fst (create double (entry_of s)))) /\
  statics (execute (pre ++ Init s :: post)) s
  = fst (checks (calls_at s post) (fst (create double (entry_of s)))).
Proof.
  intros Hpre Hpost. unfold execute. rewrite fold_left_app. cbn [fold_left step].
  destruct (before_init double s pre start Hpre eq_refl) as (_ & t & E & F).
  destruct (calls_at_site double s post
              (initialise s (fold_left step pre start)) Hpost) as (I1 & I2).
  rewrite initialise_statics, store_same in I1, I2.
  split; [|exact I1].
  rewrite I2, initialise_written, records_of_app, E.
  cbn [written start app]. rewrite (records_of_others double s t F).
  change [(s, catalog_of double (entry_of s))]
    with (tagged s [catalog_of double (entry_of s)]).
  rewrite records_of_tagged, same_site_refl. reflexivity.
Qed.

Lemma sites_are_independent_witness :
  existsb (is_init (mkSite 0 (mkEntry "x>0" "h.hpp" "f" 3)))
    [Macro (double := no_double) (mkSite 0 (mkEntry "x>0" "h.hpp" "f" 3)) true [];
     Init (mkSite 1 (mkEntry "x>0" "h.hpp" "f" 3))] = false /\
  existsb (is_init (mkSite 0 (mkEntry "x>0" "h.hpp" "f" 3)))
    [Macro (double := no_double) (mkSite 1 (mkEntry "x>0" "h.hpp" "f" 3)) true [];
     Macro (mkSite 0 (mkEntry "x>0" "h.hpp" "f" 3)) false []] = false /\
  records_of (mkSite 0 (mkEntry "x>0" "h.hpp" "f" 3))
    (written
       (execute
          ([Macro (double := no_double) (mkSite 0 (mkEntry "x>0" "h.hpp" "f" 3))
              true [];
            Init (mkSite 1 (mkEntry "x>0" "h.hpp" "f" 3))]
           ++ Init (mkSite 0 (mkEntry "x>0" "h.hpp" "f" 3))
           :: [Macro (mkSite 1 (mkEntry "x>0" "h.hpp" "f" 3)) true [];
               Macro (mkSite 0 (mkEntry "x>0" "h.hpp" "f" 3)) false []])))
  = [Catalog "x>0 in f" "h.hpp" 3 "f" "x>0";
     Reached "x>0 in f"; DetailsOut [];
     FirstFalse "x>0 in f" "x>0"; DetailsOut []].
Proof.
  split; [reflexivity|]. split; [reflexivity|].
  exact (proj1 (sites_are_independent no_double
                  [Macro (mkSite 0 (mkEntry "x>0" "h.hpp" "f" 3)) true [];
                   Init (mkSite 1 (mkEntry "x>0" "h.hpp" "f" 3))]
                  [Macro (mkSite 1 (mkEntry "x>0" "h.hpp" "f" 3)) true [];
                   Macro (mkSite 0 (mkEntry "x>0" "h.hpp" "f" 3)) false []]
                  (mkSite 0 (mkEntry "x>0" "h.hpp" "f" 3)) eq_refl eq_refl)).
Defined.

(** ** Text of a mapping *)

(** X12.  The text of a mapping is an opening brace and a space, the texts
    of its entries joined by a comma and a space, and a space and a closing
    brace: no separator before the first entry or after the last, and two
    spaces between the braces of an empty mapping. *)
Theorem details_text_is_a_join (double : Type) (put : double -> string)
    (m : Details double) :
  put_details put m
  = "{ " ++ String.concat ", " (map (entry_text put) m) ++ " }".
Proof.
  unfold put_details. destruct m as [|kv m]; [reflexivity|].
  now rewrite put_entries_join.
Qed.

Section MapExtension.

Variable double : Type.
Implicit Types (m l : list (string * ValueType double)).

Lemma ascending_tail_above (k : string) (v : ValueType double) m :
  ascending ((k, v) :: m) -> map_find k m = None.
Proof.
  intro S. apply StronglySorted_inv in S as [_ F].
  apply map_find_above. exact F.
Qed.

(** An ascending list is determined by its lookups. *)
Lemma ascending_ext m1 m2 :
  ascending m1 -> ascending m2 ->
  (forall k, map_find k m1 = map_find k m2) -> m1 = m2.
Proof.
  revert m2. induction m1 as [|[k1 v1] m1 IH]; intros [|[k2 v2] m2] S1 S2 E.
  - reflexivity.
  - specialize (E k2). cbn in E. rewrite String.eqb_refl in E. discriminate.
  - specialize (E k1). cbn in E. rewrite String.eqb_refl in E. discriminate.
  - pose proof (ascending_tail_above _ _ _ S1) as T1.
    pose proof (ascending_tail_above _ _ _ S2) as T2.
    destruct (String.compare k1 k2) eqn:C.
    + apply compare_eq in C. subst k2.
      pose proof (E k1) as E1. cbn in E1. rewrite String.eqb_refl in E1.
      injection E1 as ->. f_equal.
      apply IH.
      * now apply StronglySorted_inv in S1.
      * now apply StronglySorted_inv in S2.
      * intro k. specialize (E k). cbn in E.
        destruct (String.eqb k k1) eqn:Ek; [|exact E].
        apply String.eqb_eq in Ek. subst k. now rewrite T1, T2.
    + exfalso. specialize (E k1). cbn in E.
      rewrite String.eqb_refl, (eqb_of_lt _ _ C) in E.
      rewrite map_find_above in E; [discriminate|].
      apply StronglySorted_inv in S2 as [_ F].
      eapply Forall_impl; [|exact F].
      intros x Hx. eapply key_lt_trans; [exact C | exact Hx].
    + apply compare_gt_lt in C. exfalso. specialize (E k2). cbn in E.
      rewrite String.eqb_refl, (eqb_of_lt _ _ C) in E.
      rewrite map_find_above in E; [discriminate|].
      apply StronglySorted_inv in S1 as [_ F].
      eapply Forall_impl; [|exact F].
      intros x Hx. eapply key_lt_trans; [exact C | exact Hx].
Qed.

Lemma map_find_Details_ctor (k : string) l :
  map_find k (Details_ctor l) = first_supplied k l.
Proof. unfold Details_ctor. now rewrite map_find_fold by constructor. Qed.

Lemma map_insert_length (kv : string * ValueType double) m :
  length (map_insert kv m) <= S (length m).
Proof.
  induction m as [|kv' m IH]; cbn; [lia|].
  destruct (String.compare (fst kv) (fst kv')); cbn; lia.
Qed.

Lemma fold_insert_length l m :
  length (fold_left (fun m kv => map_insert kv m) l m) <= length l + length m.
Proof.
  revert m. induction l as [|kv l IH]; intro m; cbn [fold_left length]; [lia|].
  specialize (IH (map_insert kv m)).
  pose proof (map_insert_length kv m). lia.
Qed.

End MapExtension.

(** X13.  The mapping built from a list of pairs depends only on the first
    value supplied for each key: two lists that agree on it, whatever
    their order and whatever later duplicates they hold, build the same
    mapping and so the same text. *)
Theorem Details_depends_on_first_values (double : Type)
    (put : double -> string) (l1 l2 : list (string * ValueType double)) :
  (forall k, first_supplied k l1 = first_supplied k l2) ->
  Details_ctor l1 = Details_ctor l2 /\
  put_details put (Details_ctor l1) = put_details put (Details_ctor l2).
Proof.
  intro E.
  assert (H : Details_ctor l1 = Details_ctor l2).
  { apply ascending_ext; try apply Details_ctor_ascending.
    intro k. now rewrite !map_find_Details_ctor. }
  split; [exact H | now rewrite H].
Qed.

Lemma Details_depends_on_first_values_witness :
  (forall k,
     first_supplied (double := no_double) k
       [("a", VString "1"); ("b", VString "2"); ("a", VString "3")]
     = first_supplied k [("b", VString "2"); ("a", VString "1")]) /\
  Details_ctor (double := no_double)
    [("a", VString "1"); ("b", VString "2"); ("a", VString "3")]
  = Details_ctor [("b", VString "2"); ("a", VString "1")].
Proof.
  assert (E : forall k,
     first_supplied (double := no_double) k
       [("a", VString "1"); ("b", VString "2"); ("a", VString "3")]
     = first_supplied k [("b", VString "2"); ("a", VString "1")]).
  { intro k. cbn.
    destruct (String.eqb k "a") eqn:Ea, (String.eqb k "b") eqn:Eb;
      try reflexivity.
    apply String.eqb_eq in Ea, Eb. subst k. discriminate. }
  split; [exact E|].
  exact (proj1 (Details_depends_on_first_values no_double put_no_double _ _ E)).
Defined.

(** X14.  A mapping holds exactly as many entries as there are distinct
    keys among the supplied pairs, never more entries than pairs, and
    building a mapping from the entries of a built mapping gives that
    mapping again. *)
Theorem Details_size_and_rebuild (double : Type)
    (l : list (string * ValueType double)) :
  length (Details_ctor l) = length (nodup string_dec (keys l)) /\
  length (Details_ctor l) <= length l /\
  Details_ctor (Details_ctor l) = Details_ctor l.
Proof.
  split; [|split].
  - transitivity (length (keys (Details_ctor l)));
      [unfold keys; now rewrite length_map|].
    apply Permutation_length, NoDup_Permutation.
    + apply ascending_NoDup, Details_ctor_ascending.
    + apply NoDup_nodup.
    + intro k. now rewrite keys_Details_ctor, nodup_In.
  - unfold Details_ctor. pose proof (fold_insert_length double l []) as H.
    cbn [length] in H. now rewrite Nat.add_0_r in H.
  - apply ascending_is_fixed, Details_ctor_ascending.
Qed.

(** ** Text of the records *)

Lemma c_str_shorter (t : string) :
  has_nul t = true -> String.length (c_str t) < String.length t.
Proof.
  induction t as [|c t IH]; cbn; [discriminate|].
  destruct (Ascii.eqb c nul); cbn; [lia|].
  intro H. specialize (IH H). lia.
Qed.

Lemma c_str_append (s t : string) :
  has_nul s = false -> c_str (s ++ t) = s ++ c_str t.
Proof.
  induction s as [|c s IH]; cbn; [reflexivity|].
  destruct (Ascii.eqb c nul); cbn; [discriminate|].
  intro H. now rewrite IH.
Qed.

Lemma needs_escape_not_nul (c : ascii) :
  needs_escape c = true -> Ascii.eqb c nul = false.
Proof.
  unfold needs_escape. intro H. apply orb_prop in H as [H|H];
    apply Ascii.eqb_eq in H; subst c; reflexivity.
Qed.

Lemma has_nul_escape (s : string) : has_nul (escape s) = has_nul s.
Proof.
  induction s as [|c s IH]; cbn; [reflexivity|].
  destruct (needs_escape c) eqn:E; cbn; [|now rewrite IH].
  now rewrite IH, (needs_escape_not_nul c E).
Qed.

Lemma has_nul_quoted (s : string) : has_nul (quoted s) = has_nul s.
Proof.
  unfold quoted. cbn. rewrite has_nul_app, has_nul_escape. cbn.
  now rewrite orb_false_r.
Qed.

Lemma has_nul_put_entries (double : Type) (put : ValueType double -> string)
    (b : bool) (es : list (string * ValueType double)) :
  has_nul (put_entries put b es)
  = existsb (fun kv => has_nul (fst kv) || has_nul (put (snd kv))) es.
Proof.
  revert b. induction es as [|[k v] es IH]; intro b; [reflexivity|].
  rewrite put_entries_cons. cbn [existsb fst snd].
  rewrite !has_nul_app, has_nul_quoted, IH.
  destruct b; cbn; now rewrite ?orb_assoc.
Qed.

Lemma decimal_digits_no_nul (d : Decimal.uint) :
  has_nul (NilEmpty.string_of_uint d) = false.
Proof. induction d; cbn; auto. Qed.

Lemma decimal_no_nul (z : Z) : has_nul (decimal z) = false.
Proof.
  unfold decimal. destruct (Z.to_int z) as [d|d]; cbn;
    destruct d; cbn; auto using decimal_digits_no_nul.
Qed.

(** X15.  The details line holds the whole text of the mapping exactly
    when that text has no NUL byte, that is when no key and no value text
    of the mapping has one; otherwise the line stops before the first NUL
    byte. *)
Theorem details_line_is_cut_at_nul (double : Type) (put : double -> string)
    (d : Details double) :
  render put (DetailsOut d) = "Details: " ++ c_str (put_details put d) ++ nl /\
  (render put (DetailsOut d) = "Details: " ++ put_details put d ++ nl
   <-> has_nul (put_details put d) = false) /\
  has_nul (put_details put d)
  = existsb
      (fun kv => has_nul (fst kv) || has_nul (put_value put (snd kv))) d.
Proof.
  assert (R : render put (DetailsOut d)
              = "Details: " ++ c_str (put_details put d) ++ nl)
    by reflexivity.
  split; [exact R|]. split.
  - rewrite R. split.
    + intro E.
      destruct (has_nul (put_details put d)) eqn:H; [|reflexivity].
      exfalso. apply c_str_shorter in H.
      apply (f_equal String.length) in E.
      rewrite !length_append in E. lia.
    + intro H. now rewrite c_str_id.
  - unfold put_details. rewrite !has_nul_app, has_nul_put_entries. cbn.
    now rewrite orb_false_r.
Qed.

(** X16.  No record ever holds a NUL byte, and every record ends with a
    line feed. *)
Theorem records_are_text_lines (double : Type) (put : double -> string)
    (e : Emit double) :
  has_nul (render put e) = false /\
  exists t, render put e = t ++ nl.
Proof.
  split.
  - destruct e; cbn -[c_str decimal put_details];
      repeat (rewrite ?has_nul_app, ?c_str_no_nul, ?decimal_no_nul;
              cbn -[c_str decimal put_details]);
      reflexivity.
  - destruct e.
    + exists ("There is an assertion with ID `" ++ c_str id0 ++ "` at "
                ++ c_str file_name0 ++ ":" ++ decimal line0 ++ " in `"
                ++ c_str function_name0 ++ "` with message: `"
                ++ c_str message0 ++ "`").
      cbn -[c_str decimal].
      repeat (rewrite append_assoc; cbn -[c_str decimal]). reflexivity.
    + exists ("The assertion with ID `" ++ c_str id0 ++ "` was reached").
      cbn -[c_str].
      repeat (rewrite append_assoc; cbn -[c_str]). reflexivity.
    + exists ("The assertion with ID `" ++ c_str id0
                ++ "` saw its first false: " ++ c_str message0).
      cbn -[c_str].
      repeat (rewrite append_assoc; cbn -[c_str]). reflexivity.
    + exists ("The assertion with ID `" ++ c_str id0
                ++ "` saw its first true: " ++ c_str message0).
      cbn -[c_str].
      repeat (rewrite append_assoc; cbn -[c_str]). reflexivity.
    + exists ("Details: " ++ c_str (put_details put d)).
      cbn -[c_str put_details].
      repeat (rewrite append_assoc; cbn -[c_str put_details]). reflexivity.
Qed.

Lemma id_of_ctor (double : Type) (m fn f : string) (l : Z) :
  id (fst (Assertion_ctor double m fn f l)) = c_str m ++ " in " ++ c_str fn.
Proof. reflexivity. Qed.

(** X17.  The ID does not identify a site.  Transition records never
    mention file or line, so two sites with the same message and function
    write the same transition text; and moving the words " in " between
    message and function gives two different sites with one ID. *)
Theorem id_does_not_identify_the_site (double : Type)
    (put : double -> string) (m fn f1 f2 a b c : string) (l1 l2 : Z)
    (cond : bool) (d : Details double) :
  has_nul a = false ->
  has_nul b = false ->
  stdout_text put
    (snd (call (check_assertion cond d) (fst (Assertion_ctor double m fn f1 l1))))
  = stdout_text put
      (snd (call (check_assertion cond d)
              (fst (Assertion_ctor double m fn f2 l2)))) /\
  id (fst (Assertion_ctor double (a ++ " in " ++ b) c f1 l1))
  = id (fst (Assertion_ctor double a (b ++ " in " ++ c) f2 l2)).
Proof.
  intros Ha Hb. split; [now destruct cond|].
  rewrite !id_of_ctor.
  rewrite (c_str_append a _ Ha), (c_str_id a Ha).
  rewrite (c_str_append " in " b eq_refl), (c_str_id b Hb).
  rewrite (c_str_append b _ Hb).
  rewrite (c_str_append " in " c eq_refl).
  now rewrite !append_assoc.
Qed.

Lemma id_does_not_identify_the_site_witness :
  has_nul "x" = false /\ has_nul "y" = false /\
  id (fst (Assertion_ctor no_double ("x" ++ " in " ++ "y") "main" "a.cpp" 1))
  = id (fst (Assertion_ctor no_double "x" ("y" ++ " in " ++ "main") "b.cpp" 2)).
Proof.
  split; [reflexivity|]. split; [reflexivity|].
  exact (proj2 (id_does_not_identify_the_site no_double put_no_double
                  "m" "f" "a.cpp" "b.cpp" "x" "y" "main" 1 2 true []
                  eq_refl eq_refl)).
Defined.

(** ** Compile-time strings *)

Section Storage.

Local Open Scope list_scope.

Lemma put_at_app (pre : storage) (x : option ascii) (suf : storage)
    (c : ascii) :
  put_at (length pre) c (pre ++ x :: suf) = (pre ++ Some c :: suf)%list.
Proof. induction pre as [|y pre IH]; cbn; [reflexivity | now rewrite IH]. Qed.

Lemma length_snoc (pre : storage) (x : option ascii) :
  Z.of_nat (length (pre ++ [x])) = (Z.of_nat (length pre) + 1)%Z.
Proof. rewrite length_app. cbn. lia. Qed.

Lemma fill_zero_done (n : nat) (pre suf : storage) :
  length suf = n ->
  (Z.of_nat (length pre) + Z.of_nat n <= INT_MAX)%Z ->
  fill_zero n (Z.of_nat (length pre)) (pre ++ suf)
  = Some (pre ++ repeat (Some nul) n)%list.
Proof.
  revert pre suf. induction n as [|n IH]; intros pre suf L B.
  - destruct suf; [reflexivity | discriminate].
  - destruct suf as [|x suf]; [discriminate|]. injection L as L.
    cbn [fill_zero]. rewrite Nat2Z.id, put_at_app.
    replace (Z.of_nat (length pre) <? INT_MAX)%Z with true
      by (symmetry; apply Z.ltb_lt; lia).
    rewrite <- (length_snoc pre (Some nul)).
    replace (pre ++ Some nul :: suf)%list with ((pre ++ [Some nul]) ++ suf)%list
      by now rewrite <- app_assoc.
    rewrite IH; [|exact L | rewrite length_snoc; lia].
    cbn [repeat]. now rewrite <- app_assoc.
Qed.

Lemma fill_zero_overflow (n : nat) (i : Z) (a : storage) :
  (i <= INT_MAX)%Z -> (INT_MAX < i + Z.of_nat n)%Z -> fill_zero n i a = None.
Proof.
  revert i a. induction n as [|n IH]; intros i a B O; [lia|].
  cbn [fill_zero]. destruct (Z.ltb_spec i INT_MAX) as [L|G]; [|reflexivity].
  apply IH; lia.
Qed.

Lemma length_uninitialised (N : nat) : length (uninitialised N) = N.
Proof. apply repeat_length. Qed.

Lemma fixed_string_default_value (N : nat) :
  fixed_string_default N
  = if (Z.of_nat N <=? INT_MAX)%Z
    then Some (mkFixed (repeat (Some nul) N)) else None.
Proof.
  unfold fixed_string_default.
  destruct (Z.leb_spec (Z.of_nat N) INT_MAX) as [L|G].
  - pose proof (fill_zero_done N [] (uninitialised N)
                  (length_uninitialised N)) as H.
    cbn [length app Z.of_nat Z.add] in H. now rewrite (H L).
  - rewrite fill_zero_overflow; [reflexivity | unfold INT_MAX; lia | lia].
Qed.

Lemma get_after (pre suf : string) :
  String.get (String.length pre) (pre ++ suf)%string = String.get 0 suf.
Proof. induction pre as [|c pre IH]; cbn; [reflexivity | exact IH]. Qed.

Lemma append_snoc (pre : string) (c : ascii) (suf : string) :
  (pre ++ String c suf = (pre ++ String c EmptyString) ++ suf)%string.
Proof. now rewrite append_assoc. Qed.

Lemma length_string_snoc (pre : string) (c : ascii) :
  String.length (pre ++ String c EmptyString)%string = S (String.length pre).
Proof. rewrite length_append. cbn. lia. Qed.

Lemma copy_array_done (n : nat) (spre ssuf : string) (pre suf : storage) :
  length suf = n -> String.length ssuf = n ->
  length pre = String.length spre ->
  (Z.of_nat (length pre) + Z.of_nat n <= INT_MAX)%Z ->
  copy_array n (Z.of_nat (length pre)) (spre ++ ssuf)%string (pre ++ suf)
  = Some (pre ++ cells ssuf)%list.
Proof.
  revert spre ssuf pre suf.
  induction n as [|n IH]; intros spre ssuf pre suf L1 L2 L3 B.
  - destruct suf; [|discriminate]. destruct ssuf; [reflexivity | discriminate].
  - destruct suf as [|x suf]; [discriminate|].
    destruct ssuf as [|c ssuf]; [discriminate|].
    injection L1 as L1. injection L2 as L2.
    cbn [copy_array]. rewrite Nat2Z.id, L3, get_after. cbn [String.get].
    rewrite <- L3, put_at_app.
    replace (Z.of_nat (length pre) <? INT_MAX)%Z with true
      by (symmetry; apply Z.ltb_lt; lia).
    rewrite <- (length_snoc pre (Some c)), append_snoc.
    replace (pre ++ Some c :: suf)%list with ((pre ++ [Some c]) ++ suf)%list
      by now rewrite <- app_assoc.
    rewrite IH; try assumption.
    + unfold cells. cbn [list_ascii_of_string map]. now rewrite <- app_assoc.
    + rewrite length_app, length_string_snoc. cbn. lia.
    + rewrite length_snoc. lia.
Qed.

Lemma copy_c_str_done (n : nat) (spre ssuf : string) (pre : storage) :
  length pre = String.length spre ->
  (Z.of_nat (length pre) + Z.of_nat n <= INT_MAX)%Z ->
  has_nul ssuf = true \/ n <= String.length ssuf ->
  copy_c_str n (Z.of_nat (length pre)) (spre ++ ssuf)%string
    (pre ++ repeat (Some nul) n)
  = Some (pre ++ firstn n (cells (c_str ssuf))
            ++ repeat (Some nul) (n - String.length (c_str ssuf)))%list.
Proof.
  revert spre ssuf pre.
  induction n as [|n IH]; intros spre ssuf pre L B H.
  - reflexivity.
  - cbn [copy_c_str repeat]. rewrite Nat2Z.id, L, get_after.
    destruct ssuf as [|c ssuf].
    { exfalso. destruct H as [H|H]; [discriminate | cbn in H; lia]. }
    cbn [String.get c_str].
    destruct (Ascii.eqb c nul) eqn:E; [reflexivity|].
    rewrite <- L, put_at_app.
    replace (Z.of_nat (length pre) <? INT_MAX)%Z with true
      by (symmetry; apply Z.ltb_lt; lia).
    rewrite <- (length_snoc pre (Some c)), append_snoc.
    replace (pre ++ Some c :: repeat (Some nul) n)%list
      with ((pre ++ [Some c]) ++ repeat (Some nul) n)%list
      by now rewrite <- app_assoc.
    rewrite IH.
    + unfold cells. cbn [list_ascii_of_string map firstn String.length Nat.sub].
      now rewrite <- app_assoc.
    + rewrite length_app, length_string_snoc. cbn. lia.
    + rewrite length_snoc. lia.
    + cbn in H. rewrite E in H. cbn in H. destruct H as [H|H]; [now left|].
      right. lia.
Qed.

Lemma read_cells_nul (s : string) (rest : storage) :
  read_c_str (cells s ++ Some nul :: rest) = Some (c_str s).
Proof.
  induction s as [|c s IH]; cbn; [reflexivity|].
  destruct (Ascii.eqb c nul); [reflexivity|].
  unfold cells in IH. now rewrite IH.
Qed.

Lemma read_cells_with_nul (s : string) (rest : storage) :
  has_nul s = true -> read_c_str (cells s ++ rest) = Some (c_str s).
Proof.
  induction s as [|c s IH]; cbn; [discriminate|].
  destruct (Ascii.eqb c nul); cbn; [reflexivity|].
  intro H. unfold cells in IH. now rewrite IH.
Qed.

Lemma read_firstn_cells (s : string) (n : nat) :
  has_nul s = false -> read_c_str (firstn n (cells s)) = None.
Proof.
  revert n. induction s as [|c s IH]; intros n; cbn.
  - intros _. now destruct n.
  - destruct (Ascii.eqb c nul) eqn:E; cbn; [discriminate|].
    intro H. destruct n; cbn; [reflexivity|].
    rewrite E. unfold cells in IH. now rewrite IH.
Qed.

Lemma length_cells (s : string) : length (cells s) = String.length s.
Proof.
  unfold cells. rewrite length_map.
  induction s as [|c s IH]; cbn; [reflexivity | now rewrite IH].
Qed.

Lemma cells_text_cells (s : string) : cells_text (cells s) = Some s.
Proof.
  induction s as [|c s IH]; cbn; [reflexivity|].
  unfold cells in IH. now rewrite IH.
Qed.

Lemma cells_app (s t : string) : cells (s ++ t)%string = cells s ++ cells t.
Proof.
  unfold cells. induction s as [|c s IH]; cbn; [reflexivity | now rewrite IH].
Qed.

Lemma string_length_from_value (l : Z) (s : string) :
  (l <= INT_MAX)%Z ->
  string_length_from l s
  = if has_nul s
       && (l + Z.of_nat (String.length (c_str s)) <=? INT_MAX)%Z
    then Some (l + Z.of_nat (String.length (c_str s)))%Z else None.
Proof.
  revert l. induction s as [|c s IH]; intros l B; [reflexivity|].
  cbn [string_length_from has_nul c_str].
  destruct (Ascii.eqb c nul); cbn [orb String.length andb].
  - rewrite Z.add_0_r.
    now replace (l <=? INT_MAX)%Z with true by (symmetry; apply Z.leb_le; lia).
  - destruct (Z.ltb_spec l INT_MAX) as [L|G].
    + rewrite IH by lia.
      replace (l + 1 + Z.of_nat (String.length (c_str s)))%Z
        with (l + Z.of_nat (S (String.length (c_str s))))%Z by lia.
      reflexivity.
    + replace (l + Z.of_nat (S (String.length (c_str s))) <=? INT_MAX)%Z
        with false by (symmetry; apply Z.leb_gt; lia).
      now rewrite andb_false_r.
Qed.

End Storage.

Lemma read_cells_no_nul (s : string) :
  has_nul s = false -> read_c_str (cells s) = None.
Proof.
  intro H. rewrite <- (firstn_all (cells s)). now apply read_firstn_cells.
Qed.


Lemma from_c_str_value (N : nat) (foo : string) :
  (Z.of_nat N <= INT_MAX)%Z ->
  has_nul foo = true \/ N <= String.length foo ->
  from_c_str N foo
  = Some (mkFixed
            (firstn N (cells (c_str foo))
               ++ repeat (Some nul) (N - String.length (c_str foo)))%list).
Proof.
  intros B H. unfold from_c_str. rewrite fixed_string_default_value.
  replace (Z.of_nat N <=? INT_MAX)%Z with true by (symmetry; now apply Z.leb_le).
  cbn [contents].
  pose proof (copy_c_str_done N EmptyString foo [] eq_refl) as C.
  cbn [length app Z.of_nat Z.add append] in C.
  now rewrite (C B H).
Qed.

Lemma fixed_string_of_array_value (arr : string) :
  (Z.of_nat (String.length arr) <= INT_MAX)%Z ->
  fixed_string_of_array arr = Some (mkFixed (cells arr)).
Proof.
  intro B. unfold fixed_string_of_array.
  pose proof (copy_array_done (String.length arr) EmptyString arr []
                (uninitialised (String.length arr))
                (length_uninitialised _) eq_refl eq_refl) as C.
  cbn [length app Z.of_nat Z.add append] in C. now rewrite (C B).
Qed.

Lemma FIXED_STRING_FROM_C_STR_value (s : string) :
  FIXED_STRING_FROM_C_STR s
  = (if has_nul s && (Z.of_nat (String.length (c_str s)) <? INT_MAX)%Z
     then Some (mkFixed (cells (c_str s) ++ [Some nul])%list) else None).
Proof.
  unfold FIXED_STRING_FROM_C_STR, string_length.
  rewrite string_length_from_value by (unfold INT_MAX; lia).
  cbn [Z.add].
  destruct (has_nul s) eqn:H; cbn [andb]; [|reflexivity].
  destruct (Z.ltb_spec (Z.of_nat (String.length (c_str s))) INT_MAX) as [L|G].
  - replace (Z.of_nat (String.length (c_str s)) <=? INT_MAX)%Z with true
      by (symmetry; apply Z.leb_le; lia).
    replace (Z.to_nat (Z.of_nat (String.length (c_str s)) + 1))
      with (S (String.length (c_str s))) by lia.
    rewrite from_c_str_value; [|lia | now left].
    rewrite firstn_all2 by (rewrite length_cells; lia).
    now replace (S (String.length (c_str s)) - String.length (c_str s))
      with 1 by lia.
  - destruct (Z.leb_spec (Z.of_nat (String.length (c_str s))) INT_MAX)
      as [L|G']; [|reflexivity].
    unfold from_c_str. rewrite fixed_string_default_value.
    now replace (Z.of_nat (Z.to_nat (Z.of_nat (String.length (c_str s)) + 1))
                 <=? INT_MAX)%Z
      with false by (symmetry; apply Z.leb_gt; lia).
Qed.

Lemma cells_text_terminated (s : string) :
  cells_text (cells (c_str s) ++ [Some nul])%list
  = Some (c_str s ++ String nul EmptyString).
Proof.
  change [Some nul] with (cells (String nul EmptyString)).
  rewrite <- cells_app. apply cells_text_cells.
Qed.

(** X19.  The default constructor sets every element to the terminator;
    read as a C string the result is empty (for a size of zero there is
    nothing to read).  A size above [INT_MAX] overflows the counter. *)
Theorem default_fixed_string_is_zeroed (N : nat) :
  fixed_string_default N
  = (if (Z.of_nat N <=? INT_MAX)%Z
     then Some (mkFixed (repeat (Some nul) N)) else None) /\
  fixed_c_str (mkFixed (repeat (Some nul) N))
  = (if Nat.eqb N 0 then None else Some EmptyString).
Proof.
  split; [apply fixed_string_default_value|]. now destruct N.
Qed.

(** X20.  The array constructor keeps every byte of the array, also the
    bytes after an embedded terminator; read as a C string the result is
    the text before the first terminator, and unreadable when the array
    holds no terminator. *)
Theorem array_fixed_string_keeps_every_byte (arr : string) :
  (Z.of_nat (String.length arr) <= INT_MAX)%Z ->
  fixed_string_of_array arr = Some (mkFixed (cells arr)) /\
  cells_text (cells arr) = Some arr /\
  fixed_c_str (mkFixed (cells arr))
  = (if has_nul arr then Some (c_str arr) else None).
Proof.
  intro B. split; [|split].
  - now apply fixed_string_of_array_value.
  - apply cells_text_cells.
  - unfold fixed_c_str. cbn [contents].
    destruct (has_nul arr) eqn:H.
    + rewrite <- (app_nil_r (cells arr)). now apply read_cells_with_nul.
    + now apply read_cells_no_nul.
Qed.

Lemma array_fixed_string_keeps_every_byte_witness :
  (Z.of_nat (String.length ("a" ++ String nul ("b" ++ String nul EmptyString)))
   <= INT_MAX)%Z /\
  fixed_string_of_array ("a" ++ String nul ("b" ++ String nul EmptyString))
  = Some (mkFixed (cells ("a" ++ String nul ("b" ++ String nul EmptyString)))) /\
  fixed_c_str (mkFixed (cells ("a" ++ String nul ("b" ++ String nul EmptyString))))
  = Some "a".
Proof.
  assert (B : (Z.of_nat
                 (String.length ("a" ++ String nul ("b" ++ String nul EmptyString)))
               <= INT_MAX)%Z) by (vm_compute; discriminate).
  split; [exact B|].
  split.
  - exact (proj1 (array_fixed_string_keeps_every_byte _ B)).
  - exact (proj2 (proj2 (array_fixed_string_keeps_every_byte _ B))).
Defined.

(** X21.  [string_length] is the number of characters before the first
    terminator.  It has no value when the array holds no terminator (the
    loop reads past the array) or when that number exceeds [INT_MAX] (the
    counter overflows). *)
Theorem string_length_is_strlen (s : string) :
  string_length s
  = if has_nul s && (Z.of_nat (String.length (c_str s)) <=? INT_MAX)%Z
    then Some (Z.of_nat (String.length (c_str s))) else None.
Proof.
  unfold string_length. rewrite string_length_from_value by (unfold INT_MAX; lia).
  reflexivity.
Qed.

(** X22.  [from_c_str] copies the text before the first terminator, at
    most [N] characters of it, and leaves the other elements zero.  The
    result reads back as that text exactly when the text is shorter than
    [N]; otherwise the array holds the first [N] characters with no
    terminator and cannot be read as a C string. *)
Theorem from_c_str_copies_at_most_N (N : nat) (foo : string) :
  (Z.of_nat N <= INT_MAX)%Z ->
  has_nul foo = true \/ N <= String.length foo ->
  from_c_str N foo
  = Some (mkFixed
            (firstn N (cells (c_str foo))
               ++ repeat (Some nul) (N - String.length (c_str foo)))%list) /\
  fixed_c_str
    (mkFixed
       (firstn N (cells (c_str foo))
          ++ repeat (Some nul) (N - String.length (c_str foo)))%list)
  = (if Nat.ltb (String.length (c_str foo)) N then Some (c_str foo) else None).
Proof.
  intros B H. split; [now apply from_c_str_value|].
  unfold fixed_c_str. cbn [contents].
  destruct (Nat.ltb_spec (String.length (c_str foo)) N) as [L|G].
  - rewrite firstn_all2 by (rewrite length_cells; lia).
    destruct (N - String.length (c_str foo)) as [|k] eqn:E; [lia|].
    cbn [repeat]. rewrite read_cells_nul.
    now rewrite c_str_id by apply c_str_no_nul.
  - replace (N - String.length (c_str foo)) with 0 by lia.
    cbn [repeat]. rewrite app_nil_r.
    apply read_firstn_cells, c_str_no_nul.
Qed.

Lemma from_c_str_copies_at_most_N_witness :
  (Z.of_nat 2 <= INT_MAX)%Z /\
  (has_nul "abc" = true \/ 2 <= String.length "abc") /\
  from_c_str 2 "abc" = Some (mkFixed [Some "a"%char; Some "b"%char]) /\
  fixed_c_str (mkFixed [Some "a"%char; Some "b"%char]) = None.
Proof.
  assert (B : (Z.of_nat 2 <= INT_MAX)%Z) by (vm_compute; discriminate).
  assert (H : has_nul "abc" = true \/ 2 <= String.length "abc")
    by (right; cbn; lia).
  split; [exact B|]. split; [exact H|].
  exact (from_c_str_copies_at_most_N 2 "abc" B H).
Defined.

(** X23.  [FIXED_STRING_FROM_C_STR(s)] is an array of the text of [s] and
    one terminator, so it reads back as exactly the text of [s].  It has
    no value when [s] has no terminator or its text is [INT_MAX] characters
    or longer. *)
Theorem fixed_string_from_c_str_round_trip (s : string) :
  FIXED_STRING_FROM_C_STR s
  = (if has_nul s && (Z.of_nat (String.length (c_str s)) <? INT_MAX)%Z
     then Some (mkFixed (cells (c_str s) ++ [Some nul])%list) else None) /\
  fixed_c_str (mkFixed (cells (c_str s) ++ [Some nul])%list) = Some (c_str s) /\
  cells_text (cells (c_str s) ++ [Some nul])%list
  = Some (c_str s ++ String nul EmptyString).
Proof.
  split; [apply FIXED_STRING_FROM_C_STR_value|split].
  - unfold fixed_c_str. cbn [contents]. rewrite read_cells_nul.
    now rewrite c_str_id by apply c_str_no_nul.
  - apply cells_text_terminated.
Qed.




(** ** Reading quoted text back *)

Lemma read_body_escape (s rest : string) :
  read_body (escape s ++ String dquote rest) = Some (s, rest).
Proof.
  induction s as [|c s IH]; [reflexivity|].
  cbn [escape]. destruct (needs_escape c) eqn:E.
  - cbn [append read_body].
    change (Ascii.eqb backslash dquote) with false.
    change (Ascii.eqb backslash backslash) with true.
    cbn iota. now rewrite IH.
  - cbn [append read_body].
    unfold needs_escape in E. apply orb_false_elim in E as [E1 E2].
    now rewrite E1, E2, IH.
Qed.

(** X18.  What is written for a key or a string value can be read back
    whatever text follows it: reading from the opening quote to the first
    quote not preceded by a backslash, with each backslash dropped and the
    character after it kept, gives the original string and leaves exactly
    the text that followed. *)
Theorem quoted_text_reads_back (s rest : string) :
  read_quoted (quoted s ++ rest) = Some (s, rest).
Proof.
  unfold quoted, read_quoted. cbn [append].
  change (Ascii.eqb dquote dquote) with true. cbn iota.
  rewrite append_assoc. cbn [append]. apply read_body_escape.
Qed.
